(** * Pomerium authorization core: policy evaluator and rego generator

    A shallow embedding of
    - [authorize/evaluator/policy.go] (module [Evaluator]): [PolicyOutput],
      [Merge], [NewPolicyEvaluator], [Evaluate], [evaluateQuery], [getAllow],
      [getDeny];
    - the generator of [pkg/policy] (module [Generator]): [Generator],
      [New], [NewRule], [Generate].

    Go values are modelled as follows.  A Go [int] is a [Z] kept inside the
    64-bit two's-complement range by [wrap64].  An [interface{}] tree as the
    rego engine hands it out is a [value].  A Go map is a [gmap].  Pointers to
    [PolicyOutput] are locations of an explicit heap, so that aliasing and
    mutation are visible.  A function returning [(T, error)] returns a [res T];
    a run-time panic is the [Panicked] outcome of the monad [M]. *)

From Stdlib Require Import ZArith Ascii String DecimalString DecimalPos DecimalZ Lia.
From Stdlib Require Import Sorted.
From stdpp Require Import gmap strings list fin_maps.

#[local] Open Scope Z_scope.

(** ** Go primitives shared by both packages *)

Module Go.

(** The range of a 64-bit Go [int]. *)
Definition minInt : Z := - 2 ^ 63.
Definition maxInt : Z := 2 ^ 63 - 1.

(** Two's-complement wrap-around of 64-bit signed arithmetic. *)
Definition wrap64 (z : Z) : Z := (z + 2 ^ 63) mod 2 ^ 64 - 2 ^ 63.

(** The verb [%d] (and [fmt.Sprint]) on an [int]: decimal digits, with a
    leading minus sign for a negative number. *)
Definition formatInt (z : Z) : string := NilZero.string_of_int (Z.to_int z).

(** A Go [error]: either one made by a package outside this repository, or one
    built by [fmt.Errorf], whose format string may wrap another error with
    [%w]. *)
#[warnings="-register-all"]
Inductive error : Type :=
| ExternalError (msg : string)
| Errorf (format : string) (wrapped : option error).

(** The result of a Go function of type [(T, error)]. *)
Inductive res (A : Type) : Type :=
| Ok (a : A)
| Err (e : error).
Arguments Ok {A} a.
Arguments Err {A} e.

(** An [interface{}] tree as produced from JSON-like data: [nil], [bool],
    [json.Number] (kept as its literal text), [string], [[]interface{}] and
    [map[string]interface{}]. *)
#[warnings="-register-all"]
Inductive value : Type :=
| VNil
| VBool (b : bool)
| VNumber (literal : string)
| VString (s : string)
| VArray (elems : list value)
| VObject (fields : gmap string value).

Fixpoint joinWith (sep : string) (l : list string) : string :=
  match l with
  | [] => EmptyString
  | [x] => x
  | x :: r => x +:+ sep +:+ joinWith sep r
  end.

(** Insertion of a rendered map entry by ascending key: [fmt] prints the
    entries of a map sorted by key. *)
Fixpoint insertEntry (e : string * string) (l : list (string * string))
  : list (string * string) :=
  match l with
  | [] => [e]
  | e' :: r => if String.leb (fst e) (fst e') then e :: l else e' :: insertEntry e r
  end.

(** [fmt.Sprint] of one operand, for the dynamic types of [value]. *)
Fixpoint Sprint (v : value) : string :=
  match v with
  | VNil => "<nil>"
  | VBool b => if b then "true" else "false"
  | VNumber literal => literal
  | VString s => s
  | VArray elems => "[" +:+ joinWith " " (map Sprint elems) +:+ "]"
  | VObject fields =>
      "map[" +:+
      joinWith " "
        (map (fun e => fst e +:+ ":" +:+ snd e)
           (map_fold (fun k x acc => insertEntry (k, Sprint x) acc) [] fields))
      +:+ "]"
  end.

(** The value of an ASCII decimal digit. *)
Definition digitValue (c : ascii) : option Z :=
  let n := Z.of_nat (nat_of_ascii c) in
  if (48 <=? n) && (n <=? 57) then Some (n - 48) else None.

Fixpoint parseDigits (acc : Z) (s : string) : option Z :=
  match s with
  | EmptyString => Some acc
  | String c r =>
      match digitValue c with
      | Some d => parseDigits (10 * acc + d) r
      | None => None
      end
  end.

(** [strconv.Atoi] on a 64-bit platform: an optional sign followed by at least
    one decimal digit, inside the range of [int]; every other string is an
    error ([None]). *)
Definition Atoi (s : string) : option Z :=
  match s with
  | EmptyString => None
  | String c r =>
      let neg := Ascii.eqb c "-" in
      let digits := if neg || Ascii.eqb c "+" then r else s in
      match digits with
      | EmptyString => None
      | _ =>
          match parseDigits 0 digits with
          | Some n =>
              let v := if neg then - n else n in
              if (minInt <=? v) && (v <=? maxInt) then Some v else None
          | None => None
          end
      end
  end.

End Go.

(** ** authorize/evaluator/policy.go *)

Module Evaluator.
Import Go.

(** A Denial indicates the request should be denied (even if otherwise
    allowed). *)
Record Denial : Type := { Status : Z; Message : string }.

(** PolicyOutput is the result of evaluating a policy.  [Deny] is a pointer to
    a [Denial]; a [Denial] is never written after its construction, so the
    pointer is modelled by [option] of the value it points to ([None] is
    [nil]). *)
Record PolicyOutput : Type := { Allow : bool; Deny : option Denial }.

(** [rego.Vars]: the bindings of one result. *)
Abbreviation Vars := (gmap string value).

(** One [rego.Result]; only its bindings are read. *)
Record Result : Type := { Bindings : Vars }.

(** One entry written through [internal/log]. *)
Record LogEntry : Type := { Level : string; Msg : string }.

(** Locations of [PolicyOutput] objects. *)
Abbreviation loc := nat.

(** The outcome of one [query.Eval] call. *)
Abbreviation EvalOutcome := (res (list Result)).

(** The mutable world of an evaluation: the heap of [PolicyOutput] objects,
    the log, and the outcomes of the query executions made so far. *)
Record World : Type := {
  heap : gmap loc PolicyOutput;
  logs : list LogEntry;
  evals : list EvalOutcome
}.

Definition setHeap (h : gmap loc PolicyOutput) (w : World) : World :=
  {| heap := h; logs := logs w; evals := evals w |}.
Definition addLog (e : LogEntry) (w : World) : World :=
  {| heap := heap w; logs := logs w ++ [e]; evals := evals w |}.
Definition addEval (e : EvalOutcome) (w : World) : World :=
  {| heap := heap w; logs := logs w; evals := evals w ++ [e] |}.

(** A call either returns or panics. *)
Inductive outcome (A : Type) : Type :=
| Returned (a : A)
| Panicked (msg : string).
Arguments Returned {A} a.
Arguments Panicked {A} msg.

(** Stateful computations that may panic. *)
Definition M (A : Type) : Type := World -> outcome A * World.

Definition ret {A} (a : A) : M A := fun w => (Returned a, w).
Definition bind {A B} (m : M A) (k : A -> M B) : M B :=
  fun w =>
    match m w with
    | (Returned a, w') => k a w'
    | (Panicked msg, w') => (Panicked msg, w')
    end.
Definition panic {A} (msg : string) : M A := fun w => (Panicked msg, w).

Notation "'let*' x ':=' m 'in' k" := (bind m (fun x => k))
  (at level 10, x name, m at level 100, k at level 200).
Notation "m ';;' k" := (bind m (fun _ => k))
  (at level 100, k at level 200, right associativity).

(** [&PolicyOutput{...}] and [new(PolicyOutput)]: a fresh object. *)
Definition alloc (o : PolicyOutput) : M loc :=
  fun w => let l := fresh (dom (heap w)) in
           (Returned l, setHeap (<[l := o]> (heap w)) w).

(** Reading through a pointer; a pointer to no object is [nil]. *)
Definition load (p : loc) : M PolicyOutput :=
  fun w =>
    match heap w !! p with
    | Some o => (Returned o, w)
    | None => (Panicked "invalid memory address or nil pointer dereference", w)
    end.

(** [p.Deny = d]. *)
Definition storeDeny (p : loc) (d : option Denial) : M unit :=
  let* o := load p in
  fun w => (Returned tt, setHeap (<[p := {| Allow := Allow o; Deny := d |}]> (heap w)) w).

(** [l[i]] on a slice. *)
Definition index (l : list value) (i : nat) : M value :=
  match l !! i with
  | Some v => ret v
  | None => panic "index out of range"
  end.

(** [log.Error(ctx).Err(err).Msg(msg)]. *)
Definition logError (msg : string) : M unit :=
  fun w => (Returned tt, addLog {| Level := "error"; Msg := msg |} w).

(** Merge merges another PolicyOutput into this Output. *)
Definition Merge (output other : loc) : M loc :=
  let* o := load output in
  let* x := load other in
  let* merged := alloc {| Allow := Allow o || Allow x; Deny := Deny o |} in
  match Deny x with
  | Some d => storeDeny merged (Some d) ;; ret merged
  | None => ret merged
  end.

(** getAllow gets the allow var. It expects a boolean. *)
Definition getAllow (vars : Vars) : bool :=
  match vars !! "result" with
  | Some (VObject m) =>
      match m !! "allow" with
      | Some (VBool allow) => allow
      | _ => false
      end
  | _ => false
  end.

(** getDeny gets the deny var. It expects an (http status code, message)
    pair. *)
Definition getDeny (vars : Vars) : M (option Denial) :=
  match vars !! "result" with
  | Some (VObject m) =>
      match m !! "deny" with
      | Some (VArray pair_) =>
          let* p0 := index pair_ 0 in
          match Atoi (Sprint p0) with
          | None => logError "invalid type in deny" ;; ret None
          | Some status =>
              let* p1 := index pair_ 1 in
              ret (Some {| Status := status; Message := Sprint p1 |})
          end
      | _ => ret None
      end
  | _ => ret None
  end.

Section WithInput.

(** The request types of [PolicyInput] are declared elsewhere in the
    package. *)
Variables RequestHTTP RequestSession : Type.

(** PolicyInput is the input to policy evaluation. *)
Record PolicyInput : Type := {
  HTTP : RequestHTTP;
  Session : RequestSession;
  IsValidClientCertificate : bool
}.

(** A [rego.PreparedEvalQuery], by what its [Eval] yields on an input. *)
Record PreparedEvalQuery : Type := { Eval : PolicyInput -> EvalOutcome }.

(** A PolicyEvaluator evaluates policies. *)
Record PolicyEvaluator : Type := { queries : list PreparedEvalQuery }.

(** [query.Eval(ctx, rego.EvalInput(input))]; the execution is recorded. *)
Definition evalQuery (query : PreparedEvalQuery) (input : PolicyInput)
  : M EvalOutcome :=
  fun w => (Returned (Eval query input), addEval (Eval query input) w).

Definition evaluateQuery (input : PolicyInput) (query : PreparedEvalQuery)
  : M (res loc) :=
  let* r := evalQuery query input in
  match r with
  | Err err =>
      ret (Err (Errorf "authorize: error evaluating policy.rego: %w" (Some err)))
  | Ok [] =>
      ret (Err (Errorf "authorize: unexpected empty result from evaluating policy.rego" None))
  | Ok (rs0 :: _) =>
      let allow := getAllow (Bindings rs0) in
      let* deny := getDeny (Bindings rs0) in
      let* o := alloc {| Allow := allow; Deny := deny |} in
      ret (Ok o)
  end.

(** The loop of [Evaluate]: run each query and merge the results. *)
Fixpoint evaluateLoop (input : PolicyInput) (qs : list PreparedEvalQuery)
  (output : loc) : M (res loc) :=
  match qs with
  | [] => ret (Ok output)
  | query :: qs' =>
      let* r := evaluateQuery input query in
      match r with
      | Err err => ret (Err err)
      | Ok o =>
          let* output' := Merge output o in
          evaluateLoop input qs' output'
      end
  end.

(** Evaluate evaluates the policy rego scripts. *)
Definition Evaluate (e : PolicyEvaluator) (input : PolicyInput) : M (res loc) :=
  let* output := alloc {| Allow := false; Deny := None |} in
  evaluateLoop input (queries e) output.

(** What [NewPolicyEvaluator] uses of the packages [config], [policy] and
    [rego], and of the [Store]. *)
Variables Store ConfigPolicy PPL : Type.

(** [sp.Rego] of a sub policy. *)
Record SubPolicy : Type := { Rego : list string }.

Variable SubPolicies : ConfigPolicy -> list SubPolicy.
Variable ToPPL : ConfigPolicy -> PPL.
Variable GenerateRegoFromPolicy : PPL -> res string.

(** [rego.New(rego.Store(store), rego.Module("pomerium.policy", script), ...)
    .PrepareForEval(ctx)]. *)
Variable PrepareForEval : Store -> string -> res PreparedEvalQuery.

(** The scripts to compile: the base script, then any custom rego. *)
Definition collectScripts (base : string) (configPolicy : ConfigPolicy)
  : list string :=
  fold_left
    (fun scripts sp =>
       fold_left
         (fun scripts src =>
            if negb (String.eqb src "") then scripts ++ [src] else scripts)
         (Rego sp) scripts)
    (SubPolicies configPolicy) [base].

(** For each script, create a rego and prepare a query. *)
Fixpoint prepareLoop (store : Store) (scripts : list string)
  (e : PolicyEvaluator) : res PolicyEvaluator :=
  match scripts with
  | [] => Ok e
  | script :: rest =>
      match PrepareForEval store script with
      | Err err => Err err
      | Ok q => prepareLoop store rest {| queries := queries e ++ [q] |}
      end
  end.

(** NewPolicyEvaluator creates a new PolicyEvaluator. *)
Definition NewPolicyEvaluator (store : Store) (configPolicy : ConfigPolicy)
  : res PolicyEvaluator :=
  let e := {| queries := [] |} in
  let ppl := ToPPL configPolicy in
  match GenerateRegoFromPolicy ppl with
  | Err err => Err err
  | Ok base =>
      let scripts := collectScripts base configPolicy in
      prepareLoop store scripts e
  end.

End WithInput.

Arguments HTTP {_ _} _.
Arguments Session {_ _} _.
Arguments IsValidClientCertificate {_ _} _.
Arguments Eval {_ _} _ _.
Arguments queries {_ _} _.
Arguments evalQuery {_ _} _ _.
Arguments evaluateQuery {_ _} _ _.
Arguments evaluateLoop {_ _} _ _ _.
Arguments Evaluate {_ _} _ _.
Arguments collectScripts {_} _ _ _.
Arguments prepareLoop {_ _ _} _ _ _ _.
Arguments NewPolicyEvaluator {_ _ _ _ _} _ _ _ _ _ _.

(** The merge rule in the words of the specification: the merged allow is the
    disjunction, and the merged denial is the other's when it is present and
    the running one otherwise. *)
Definition Merge_spec (running other : PolicyOutput) : PolicyOutput :=
  {| Allow := Allow running || Allow other;
     Deny := match Deny other with
             | Some d => Some d
             | None => Deny running
             end |}.

(** The denial of the latest output that has one. *)
Fixpoint lastDenial (outs : list PolicyOutput) : option Denial :=
  match outs with
  | [] => None
  | o :: rest =>
      match lastDenial rest with
      | Some d => Some d
      | None => Deny o
      end
  end.

(** [returned] wraps [cause]: it was built by [fmt.Errorf] around it. *)
Definition wraps (returned cause : error) : Prop :=
  exists format, returned = Errorf format (Some cause).

(** A world with nothing in it. *)
Definition emptyWorld : World := {| heap := ∅; logs := []; evals := [] |}.

(** What [getDeny] returns; it does not depend on the world it runs in
    (lemma [getDeny_fst]). *)
Definition denialOf (vars : Vars) : outcome (option Denial) :=
  fst (getDeny vars emptyWorld).

(** [o] is the output [evaluateQuery] builds from the first result of
    [query] on [input]. *)
Definition producedBy {RequestHTTP RequestSession : Type}
  (input : PolicyInput RequestHTTP RequestSession)
  (query : PreparedEvalQuery RequestHTTP RequestSession)
  (o : PolicyOutput) : Prop :=
  exists rs0 rest,
    Eval query input = Ok (rs0 :: rest) /\
    Allow o = getAllow (Bindings rs0) /\
    denialOf (Bindings rs0) = Returned (Deny o).

(** An execution that makes [evaluateQuery] return an error: the engine
    failed, or it yielded no result. *)
Definition failedEval (r : EvalOutcome) : Prop :=
  match r with
  | Err _ => True
  | Ok [] => True
  | Ok (_ :: _) => False
  end.

(** *** Sample data *)

(** An input over request types with one inhabitant. *)
Definition sampleInput : PolicyInput unit unit :=
  {| HTTP := tt; Session := tt; IsValidClientCertificate := true |}.

(** A query that yields [r] on every input. *)
Definition constQuery (r : EvalOutcome) : PreparedEvalQuery unit unit :=
  {| Eval := fun _ => r |}.

(** One result binding [result] to an object with the given fields. *)
Definition resultOf (fields : Vars) : Result :=
  {| Bindings := {[ "result" := VObject fields ]} |}.

(** Three queries: nothing, then allow with a denial, then nothing. *)
Definition sampleDenial : value := VArray [VNumber "403"; VString "blocked"].
Definition sampleQueries : list (PreparedEvalQuery unit unit) :=
  [ constQuery (Ok [resultOf {[ "allow" := VBool false ]}]);
    constQuery (Ok [resultOf (<[ "allow" := VBool true ]> {[ "deny" := sampleDenial ]})]);
    constQuery (Ok [resultOf ∅]) ].

(** A denial pair whose status is no number, beside an allow. *)
Definition malformedFields : Vars :=
  <[ "allow" := VBool true ]> {[ "deny" := VArray [VString "forbidden"; VString "blocked"] ]}.

(** A compiler that rejects the script [bad] and accepts every other one;
    configurations are given as their list of sub policies. *)
Definition samplePrepare (_ : unit) (script : string)
  : res (PreparedEvalQuery unit unit) :=
  if String.eqb script "bad"
  then Err (ExternalError "rego_parse_error")
  else Ok (constQuery (Ok [])).
Definition sampleGenerate (_ : unit) : res string := Ok "package pomerium.policy".
Definition sampleNew (configPolicy : list SubPolicy)
  : res (PolicyEvaluator unit unit) :=
  NewPolicyEvaluator (fun c => c) (fun _ => tt) sampleGenerate samplePrepare
    tt configPolicy.

End Evaluator.

(** ** pkg/policy/generator: converting Pomerium Policy Language into Rego *)

(** The part of [github.com/open-policy-agent/opa/ast] the generator builds
    values of. *)
Module ast.

#[warnings="-register-all"]
Inductive Term : Type :=
| BooleanTerm (b : bool)
| NumberTerm (literal : string)
| StringTerm (s : string)
| VarTerm (name : string)
| RefTerm (parts : list Term)
| ArrayTerm (elems : list Term)
| CallTerm (operands : list Term).

(** The terms of an expression: a single term, or an operator followed by its
    operands. *)
Inductive ExprTerms : Type :=
| SingleTerm (t : Term)
| Terms (ts : list Term).

Record Expr : Type := { Negated : bool; ExprOf : ExprTerms }.

(** [ast.NewExpr(term)]. *)
Definition NewExpr (t : Term) : Expr := {| Negated := false; ExprOf := SingleTerm t |}.

(** [ast.Assign.Expr(a, b)]: a call of the builtin named [assign]. *)
Definition AssignExpr (a b : Term) : Expr :=
  {| Negated := false; ExprOf := Terms [RefTerm [VarTerm "assign"]; a; b] |}.

Record Location : Type := { Text : string; File : string; Row : Z; Col : Z }.

(** [ast.NewLocation(text, file, row, col)]. *)
Definition NewLocation (text file : string) (row col : Z) : Location :=
  {| Text := text; File := file; Row := row; Col := col |}.

Record Head : Type := {
  Name : string;
  Args : list Term;
  Key : option Term;
  Value : option Term
}.

#[warnings="-register-all"]
Inductive Rule : Type := mkRule {
  Location_ : option Location;
  Default : bool;
  Head_ : Head;
  Body : list Expr;
  Else : option Rule
}.

Abbreviation RuleSet := (list Rule).

Record Package : Type := { Path : list Term }.

Record Module_ : Type := { Package_ : Package; Rules : RuleSet }.

(** [r.SetLoc(loc)]. *)
Definition SetLoc (r : Rule) (l : Location) : Rule :=
  mkRule (Some l) (Default r) (Head_ r) (Body r) (Else r).

(** The number of positional arguments of a rule: [len(r.Head.Args)]. *)
Definition arity (r : Rule) : nat := length (Args (Head_ r)).

(** A rule without the locations of itself and of its else chain. *)
Fixpoint unlocated (r : Rule) : Rule :=
  match r with
  | mkRule _ default head body els =>
      mkRule None default head body
        match els with
        | Some e => Some (unlocated e)
        | None => None
        end
  end.

End ast.

(** [sort.SliceStable]: the stable sort of a slice under [less].  The result
    of a stable sort is determined by its input; it is computed here by
    insertion from the right, each element going before the first one that is
    not less than it. *)
Module sort.

Fixpoint insertStable {A} (less : A -> A -> bool) (x : A) (l : list A) : list A :=
  match l with
  | [] => [x]
  | y :: r => if less y x then y :: insertStable less x r else x :: l
  end.

Definition SliceStable {A} (less : A -> A -> bool) (l : list A) : list A :=
  foldr (insertStable less) [] l.

End sort.

(** The part of [pkg/policy/parser] the generator reads. *)
Module parser.
Section WithCriterion.
Variable Criterion : Type.

Record PolicyRule : Type := {
  Action : string;
  And : list Criterion;
  Or : list Criterion;
  Not : list Criterion;
  Nor : list Criterion
}.

Record Policy : Type := { Rules : list PolicyRule }.

End WithCriterion.
Arguments Action {Criterion} _.
Arguments And {Criterion} _.
Arguments Or {Criterion} _.
Arguments Not {Criterion} _.
Arguments Nor {Criterion} _.
Arguments Rules {Criterion} _.
End parser.

Module Generator.
Import Go.

Section WithPackages.

(** The [Criterion] interface of this package (with its method [Names]) and
    the parsed criteria of [parser] are declared in other files. *)
Variable Criterion : Type.
Variable Names : Criterion -> list string.
Variable ParserCriterion : Type.

(** A Generator generates a rego script from a policy. *)
Record Generator : Type := {
  ids : gmap string Z;
  criteria : gmap string Criterion
}.

(** An Option configures the Generator. *)
Definition Option := Generator -> Generator.

(** A [CriterionConstructor]: it is handed the generator itself, so it
    returns the generator as it leaves it beside the criterion. *)
Definition CriterionConstructor := Generator -> Criterion * Generator.

(** WithCriterion adds a Criterion to the generator's known criteria. *)
Definition WithCriterion (criterionConstructor : CriterionConstructor) : Option :=
  fun g =>
    let '(c, g) := criterionConstructor g in
    fold_left
      (fun g name => {| ids := ids g; criteria := <[name := c]> (criteria g) |})
      (Names c) g.

(** New creates a new Generator. *)
Definition New (options : list Option) : Generator :=
  fold_left (fun g o => o g) options {| ids := ∅; criteria := ∅ |}.

(** GetCriterion gets a Criterion for the given name. *)
Definition GetCriterion (g : Generator) (name : string) : option Criterion :=
  criteria g !! name.

(** [g.ids[name]], zero for a missing key. *)
Definition idOf (g : Generator) (name : string) : Z :=
  default 0 (ids g !! name).

(** NewRule creates a new rule with a dynamically generated name. *)
Definition NewRule (g : Generator) (name : string) : ast.Rule * Generator :=
  let id := idOf g name in
  let g' := {| ids := <[name := wrap64 (idOf g name + 1)]> (ids g);
               criteria := criteria g |} in
  (ast.mkRule None false
     {| ast.Name := name +:+ "_" +:+ formatInt id;
        ast.Args := []; ast.Key := None; ast.Value := None |}
     [] None,
   g').

(** The state [Generate] threads through its helpers: the receiver and the
    rule set under construction. *)
Record GenState : Type := { gen : Generator; rules : ast.RuleSet }.

(** A [conditionalGenerator]: it lowers a list of criteria into one sub rule,
    and may add rules to the rule set and draw names from the generator. *)
Definition conditionalGenerator :=
  list ParserCriterion -> GenState -> res ast.Rule * GenState.

(** The four lowerings, declared in another file of this package. *)
Variables generateAndRule generateOrRule generateNotRule generateNorRule
  : conditionalGenerator.

(** What [Generate] calls of [ast]. *)
Variable MustParseRule : string -> ast.Rule.
Variable Add : ast.RuleSet -> ast.Rule -> ast.RuleSet.
Variable RuleString : ast.Rule -> string.

(** The inner loop of [Generate] over the four combinator fields of one
    policy rule. *)
Fixpoint fieldsLoop (fields : list (list ParserCriterion * conditionalGenerator))
  (rule : ast.Rule) (st : GenState) : res ast.Rule * GenState :=
  match fields with
  | [] => (Ok rule, st)
  | (field_criteria, field_generator) :: rest =>
      if (length field_criteria =? 0)%nat then fieldsLoop rest rule st
      else
        match field_generator field_criteria st with
        | (Err err, st') => (Err err, st')
        | (Ok subRule, st') =>
            let body1 :=
              if (length (ast.Body rule) =? 0)%nat
              then ast.Body rule ++
                   [ast.AssignExpr (ast.VarTerm "v")
                      (ast.VarTerm (ast.Name (ast.Head_ subRule)))]
              else ast.Body rule in
            let body2 :=
              body1 ++ [ast.NewExpr (ast.VarTerm (ast.Name (ast.Head_ subRule)))] in
            fieldsLoop rest
              (ast.mkRule (ast.Location_ rule) (ast.Default rule) (ast.Head_ rule)
                 body2 (ast.Else rule))
              st'
        end
  end.

(** The head rule a policy rule starts from. *)
Definition headRule (policyRule : parser.PolicyRule ParserCriterion) : ast.Rule :=
  ast.mkRule None false
    {| ast.Name := parser.Action policyRule; ast.Args := [];
       ast.Key := None; ast.Value := Some (ast.VarTerm "v") |}
    [] None.

Definition fieldsOf (policyRule : parser.PolicyRule ParserCriterion)
  : list (list ParserCriterion * conditionalGenerator) :=
  [ (parser.And policyRule, generateAndRule);
    (parser.Or policyRule, generateOrRule);
    (parser.Not policyRule, generateNotRule);
    (parser.Nor policyRule, generateNorRule) ].

(** The outer loop of [Generate] over the rules of the policy. *)
Fixpoint rulesLoop (policyRules : list (parser.PolicyRule ParserCriterion))
  (st : GenState) : res unit * GenState :=
  match policyRules with
  | [] => (Ok tt, st)
  | policyRule :: rest =>
      match fieldsLoop (fieldsOf policyRule) (headRule policyRule) st with
      | (Err err, st') => (Err err, st')
      | (Ok rule, st') =>
          rulesLoop rest {| gen := gen st'; rules := Add (rules st') rule |}
      end
  end.

(** The comparison handed to [sort.SliceStable]. *)
Definition fewerArgs (ri rj : ast.Rule) : bool :=
  (length (ast.Args (ast.Head_ ri)) <? length (ast.Args (ast.Head_ rj)))%nat.

(** [ast.WalkRules] with the callback of [Generate], on one rule: the rule,
    then the rules of its else chain, each given the next position. *)
Fixpoint locateRule (r : ast.Rule) (i : Z) : ast.Rule * Z :=
  let located := ast.SetLoc r (ast.NewLocation (RuleString r) "" i 1) in
  match ast.Else r with
  | None => (located, wrap64 (i + 1))
  | Some e =>
      let '(e', i') := locateRule e (wrap64 (i + 1)) in
      (ast.mkRule (ast.Location_ located) (ast.Default located)
         (ast.Head_ located) (ast.Body located) (Some e'), i')
  end.

Fixpoint locateRules (rs : ast.RuleSet) (i : Z) : ast.RuleSet :=
  match rs with
  | [] => []
  | r :: rest => let '(r', i') := locateRule r i in r' :: locateRules rest i'
  end.

(** The rule set before it is sorted. *)
Definition buildRules (policy : parser.Policy ParserCriterion) (g : Generator)
  : res ast.RuleSet * Generator :=
  let rules0 := [] in
  let rules1 := Add rules0 (MustParseRule "default allow = false") in
  let rules2 := Add rules1 (MustParseRule "default deny = false") in
  match rulesLoop (parser.Rules policy) {| gen := g; rules := rules2 |} with
  | (Err err, st) => (Err err, gen st)
  | (Ok _, st) => (Ok (rules st), gen st)
  end.

(** Generate generates the rego module from a policy. *)
Definition Generate (g : Generator) (policy : parser.Policy ParserCriterion)
  : res ast.Module_ * Generator :=
  match buildRules policy g with
  | (Err err, g') => (Err err, g')
  | (Ok built, g') =>
      let path := [ast.StringTerm "policy.rego"; ast.StringTerm "pomerium";
                   ast.StringTerm "policy"] in
      (* move functions to the end *)
      let sorted := sort.SliceStable fewerArgs built in
      (Ok {| ast.Package_ := {| ast.Path := path |};
             ast.Rules := locateRules sorted 1 |},
       g')
  end.

End WithPackages.

Arguments New {_} _.
Arguments GetCriterion {_} _ _.
Arguments ids {_} _.
Arguments criteria {_} _.
Arguments idOf {_} _ _.
Arguments NewRule {_} _ _.
Arguments gen {_} _.
Arguments rules {_} _.
Arguments fieldsLoop {_ _} _ _ _.
Arguments headRule {_} _.
Arguments fieldsOf {_ _} _ _ _ _ _.
Arguments rulesLoop {_ _} _ _ _ _ _ _ _.
Arguments buildRules {_ _} _ _ _ _ _ _ _ _.
Arguments Generate {_ _} _ _ _ _ _ _ _ _ _.

(** The name of a rule: [r.Head.Name]. *)
Definition ruleName (r : ast.Rule) : string := ast.Name (ast.Head_ r).

(** A sequence of [NewRule] calls on one generator, one call per name. *)
Fixpoint NewRules {Criterion} (g : Generator Criterion) (names : list string)
  : list ast.Rule * Generator Criterion :=
  match names with
  | [] => ([], g)
  | name :: rest =>
      let '(r, g') := NewRule g name in
      let '(rs, g'') := NewRules g' rest in
      (r :: rs, g'')
  end.

(** The body constraint that requires a sub rule to hold. *)
Definition constraintOf (subRule : ast.Rule) : ast.Expr :=
  ast.NewExpr (ast.VarTerm (ruleName subRule)).

(** The body of a head rule over its sub rules: the value variable [v] is
    assigned from the first one, and each one is required to hold. *)
Definition headBody (subRules : list ast.Rule) : list ast.Expr :=
  match subRules with
  | [] => []
  | first :: _ =>
      ast.AssignExpr (ast.VarTerm "v") (ast.VarTerm (ruleName first))
      :: map constraintOf subRules
  end.

(** [lowered fields st subRules st']: going through [fields] in order from
    state [st], the generators of the fields with a non-empty criteria list
    return [subRules], one each, and leave state [st']; a field with an empty
    list calls nothing. *)
Inductive lowered {Criterion ParserCriterion : Type} :
  list (list ParserCriterion * conditionalGenerator Criterion ParserCriterion) ->
  GenState Criterion -> list ast.Rule -> GenState Criterion -> Prop :=
| lowered_nil st : lowered [] st [] st
| lowered_skip generator fields st subRules st' :
    lowered fields st subRules st' ->
    lowered (([], generator) :: fields) st subRules st'
| lowered_call criterion field_criteria generator fields st subRule st1 subRules st' :
    generator (criterion :: field_criteria) st = (Ok subRule, st1) ->
    lowered fields st1 subRules st' ->
    lowered ((criterion :: field_criteria, generator) :: fields) st
      (subRule :: subRules) st'.

(** *** Sample data *)

(** A generator with no criteria registered; parsed criteria are given by
    their names. *)
Definition sampleGenerator : Generator unit := New [].

(** A lowering that draws a name for [base], registers a helper function of
    one argument under that name, and then the sub rule itself. *)
Definition sampleLowering (base : string) : conditionalGenerator unit string :=
  fun _ st =>
    let '(subRule, g) := NewRule (gen st) base in
    let helper :=
      ast.mkRule None false
        {| ast.Name := ruleName subRule +:+ "_fn"; ast.Args := [ast.VarTerm "x"];
           ast.Key := None; ast.Value := None |}
        [] None in
    (Ok subRule, {| gen := g; rules := rules st ++ [helper; subRule] |}).

(** A lowering that always fails. *)
Definition failingLowering : conditionalGenerator unit string :=
  fun _ st => (Err (ExternalError "unknown criterion"), st).

Definition sampleParse (src : string) : ast.Rule :=
  ast.mkRule None true
    {| ast.Name := src; ast.Args := []; ast.Key := None;
       ast.Value := Some (ast.BooleanTerm false) |}
    [] None.

Definition sampleAdd (rs : ast.RuleSet) (r : ast.Rule) : ast.RuleSet := rs ++ [r].

Definition samplePolicyRule : parser.PolicyRule string :=
  {| parser.Action := "allow"; parser.And := ["domain"]; parser.Or := [];
     parser.Not := ["user"; "email"]; parser.Nor := [] |}.

Definition sampleFields :=
  fieldsOf (sampleLowering "and") (sampleLowering "or") (sampleLowering "not")
    (sampleLowering "nor") samplePolicyRule.

Definition sampleGenerate (policy : parser.Policy string)
  : res ast.Module_ * Generator unit :=
  Generate (sampleLowering "and") (sampleLowering "or") (sampleLowering "not")
    (sampleLowering "nor") sampleParse sampleAdd ruleName sampleGenerator policy.

End Generator.

(** ** Properties of the policy evaluator *)

Module EvaluatorProofs.
Import Go Evaluator.

Lemma bind_returned {A B} (m : M A) (k : A -> M B) w a w' :
  m w = (Returned a, w') -> bind m k w = k a w'.
Proof. intros H. unfold bind. now rewrite H. Qed.

Lemma bind_panicked {A B} (m : M A) (k : A -> M B) w msg w' :
  m w = (Panicked msg, w') -> bind m k w = (Panicked msg, w').
Proof. intros H. unfold bind. now rewrite H. Qed.

Lemma alloc_run o w :
  alloc o w =
  (Returned (fresh (dom (heap w))),
   setHeap (<[fresh (dom (heap w)) := o]> (heap w)) w).
Proof. reflexivity. Qed.

Lemma fresh_unused (h : gmap loc PolicyOutput) : h !! fresh (dom h) = None.
Proof. apply not_elem_of_dom, is_fresh. Qed.

Lemma load_run p o w : heap w !! p = Some o -> load p w = (Returned o, w).
Proof. intros H. unfold load. now rewrite H. Qed.

(** [Merge] on two live objects allocates one object holding [Merge_spec]. *)
Lemma Merge_run output other o x w :
  heap w !! output = Some o ->
  heap w !! other = Some x ->
  Merge output other w =
  (Returned (fresh (dom (heap w))),
   setHeap (<[fresh (dom (heap w)) := Merge_spec o x]> (heap w)) w).
Proof.
  intros Ho Hx. unfold Merge.
  rewrite (bind_returned _ _ _ _ _ (load_run _ _ _ Ho)).
  rewrite (bind_returned _ _ _ _ _ (load_run _ _ _ Hx)).
  rewrite (bind_returned _ _ _ _ _ (alloc_run _ _)).
  unfold Merge_spec. destruct (Deny x) as [d|]; [|reflexivity].
  unfold bind, storeDeny, bind, load, ret, setHeap; simpl.
  rewrite lookup_insert_eq. simpl. now rewrite insert_insert_eq.
Qed.

(** [getDeny] touches neither the heap nor the record of executions, and what
    it returns does not depend on the world. *)
Lemma getDeny_frame vars w :
  fst (getDeny vars w) = denialOf vars /\
  heap (snd (getDeny vars w)) = heap w /\
  evals (snd (getDeny vars w)) = evals w.
Proof.
  unfold denialOf, getDeny.
  destruct (vars !! "result") as [[| | | | |m]|]; try done.
  destruct (m !! "deny") as [[| | | |pair_|]|]; try done.
  unfold index. destruct (pair_ !! 0%nat) as [p0|]; try done.
  cbv beta iota delta [bind ret].
  destruct (Atoi (Sprint p0)); [destruct (pair_ !! 1%nat)|]; done.
Qed.

Lemma getDeny_fst vars w : fst (getDeny vars w) = denialOf vars.
Proof. apply getDeny_frame. Qed.

Lemma getDeny_heap vars w : heap (snd (getDeny vars w)) = heap w.
Proof. apply getDeny_frame. Qed.

Lemma getDeny_evals vars w : evals (snd (getDeny vars w)) = evals w.
Proof. apply getDeny_frame. Qed.

(** [Merge] by cases on its two pointers. *)
Lemma Merge_cases output other w :
  Merge output other w =
  match heap w !! output, heap w !! other with
  | Some o, Some x =>
      (Returned (fresh (dom (heap w))),
       setHeap (<[fresh (dom (heap w)) := Merge_spec o x]> (heap w)) w)
  | _, _ => (Panicked "invalid memory address or nil pointer dereference", w)
  end.
Proof.
  destruct (heap w !! output) as [o|] eqn:Ho.
  - destruct (heap w !! other) as [x|] eqn:Hx.
    + now apply Merge_run.
    + unfold Merge. rewrite (bind_returned _ _ _ _ _ (load_run _ _ _ Ho)).
      unfold bind, load. now rewrite Hx.
  - unfold Merge, bind, load. now rewrite Ho.
Qed.

Section WithInput.
Context {RequestHTTP RequestSession : Type}.
#[local] Abbreviation PolicyInput := (PolicyInput RequestHTTP RequestSession).
#[local] Abbreviation PreparedEvalQuery := (PreparedEvalQuery RequestHTTP RequestSession).
#[local] Abbreviation PolicyEvaluator := (PolicyEvaluator RequestHTTP RequestSession).

(** [evaluateQuery] by cases on what the execution yields. *)
Lemma evaluateQuery_run (input : PolicyInput) (query : PreparedEvalQuery) w :
  evaluateQuery input query w =
  let w1 := addEval (Eval query input) w in
  match Eval query input with
  | Err err =>
      (Returned (Err (Errorf "authorize: error evaluating policy.rego: %w" (Some err))), w1)
  | Ok [] =>
      (Returned (Err (Errorf "authorize: unexpected empty result from evaluating policy.rego" None)), w1)
  | Ok (rs0 :: _) =>
      let w2 := snd (getDeny (Bindings rs0) w1) in
      match denialOf (Bindings rs0) with
      | Returned deny =>
          (Returned (Ok (fresh (dom (heap w)))),
           setHeap (<[fresh (dom (heap w)) :=
                        {| Allow := getAllow (Bindings rs0); Deny := deny |}]> (heap w)) w2)
      | Panicked msg => (Panicked msg, w2)
      end
  end.
Proof.
  unfold evaluateQuery, bind at 1, evalQuery.
  destruct (Eval query input) as [[|rs0 rest]|err]; try reflexivity.
  cbv zeta. unfold bind at 1.
  pose proof (getDeny_fst (Bindings rs0) (addEval (Ok (rs0 :: rest)) w)) as Hf.
  pose proof (getDeny_heap (Bindings rs0) (addEval (Ok (rs0 :: rest)) w)) as Hh.
  destruct (getDeny (Bindings rs0) (addEval (Ok (rs0 :: rest)) w)) as [r w2].
  simpl in Hf, Hh. rewrite <- Hf. destruct r as [deny|msg]; [|reflexivity].
  unfold bind, alloc, ret. simpl. now rewrite Hh.
Qed.

(** Outside the short-array case [getDeny] tolerates what it finds: with no
    object under [result], or no array under [deny], it returns no denial and
    leaves the world as it is. *)
Lemma getDeny_not_array vars w :
  (forall m pair_, vars !! "result" = Some (VObject m) ->
                   m !! "deny" <> Some (VArray pair_)) ->
  getDeny vars w = (Returned None, w).
Proof.
  intros H. unfold getDeny.
  destruct (vars !! "result") as [[| | | | |m]|]; try reflexivity.
  specialize (H m). destruct (m !! "deny") as [[| | | |pair_|]|]; try reflexivity.
  now destruct (H pair_).
Qed.

(** C1 (the code departs from the claim): when [deny] is an array of fewer
    than two elements, [getDeny] does not return "no denial": indexing the
    array panics.  An empty array panics at [pair[0]]; a one-element array
    whose element reads as an integer panics at [pair[1]]; and the panic
    leaves [evaluateQuery] and [Evaluate] without any PolicyOutput or error. *)
Theorem getDeny_short_array_panics :
  (forall w,
     getDeny {[ "result" := VObject {[ "deny" := VArray [] ]} ]} w
     = (Panicked "index out of range", w)) /\
  (forall w,
     getDeny {[ "result" := VObject {[ "deny" := VArray [VNumber "403"] ]} ]} w
     = (Panicked "index out of range", w)) /\
  (forall (input : PolicyInput) w,
     fst (Evaluate
            {| queries :=
                 [ {| Eval := fun _ =>
                        Ok [ {| Bindings :=
                                  {[ "result" := VObject {[ "deny" := VArray [] ]} ]} |} ] |} ] |}
            input w)
     = Panicked "index out of range").
Proof.
  split; [|split].
  - intros w. reflexivity.
  - intros w. reflexivity.
  - intros input w. unfold Evaluate.
    rewrite (bind_returned _ _ _ _ _ (alloc_run _ _)).
    cbn [queries evaluateLoop]. unfold bind at 1.
    rewrite evaluateQuery_run. reflexivity.
Qed.

Lemma setHeap_heap h w : heap (setHeap h w) = h.
Proof. reflexivity. Qed.

Lemma lookup_fresh_ne (h : gmap loc PolicyOutput) l v o :
  h !! l = Some v -> <[fresh (dom h) := o]> h !! l = Some v.
Proof.
  intros H. rewrite lookup_insert_ne; [done|].
  intros <-. rewrite fresh_unused in H. discriminate.
Qed.

(** One turn of the loop of [Evaluate] on a query whose first result yields an
    output: the loop goes on with the merged output, which is a new object,
    and every object that existed before is as it was. *)
Lemma evaluateLoop_step (input : PolicyInput) query qs output acc rs0 rest deny w :
  Eval query input = Ok (rs0 :: rest) ->
  denialOf (Bindings rs0) = Returned deny ->
  heap w !! output = Some acc ->
  exists output' w',
    evaluateLoop input (query :: qs) output w = evaluateLoop input qs output' w' /\
    heap w' !! output' =
      Some (Merge_spec acc {| Allow := getAllow (Bindings rs0); Deny := deny |}) /\
    (forall l v, heap w !! l = Some v -> heap w' !! l = Some v) /\
    evals w' = evals w ++ [Eval query input].
Proof.
  intros HE HD Hacc. cbn [evaluateLoop]. unfold bind at 1.
  rewrite evaluateQuery_run. cbv zeta. rewrite HE, HD.
  set (w1 := addEval (Ok (rs0 :: rest)) w).
  set (w2 := snd (getDeny (Bindings rs0) w1)).
  set (o := {| Allow := getAllow (Bindings rs0); Deny := deny |}).
  set (l := fresh (dom (heap w))).
  set (w3 := setHeap (<[l := o]> (heap w)) w2).
  assert (H3o : heap w3 !! output = Some acc) by (now apply lookup_fresh_ne).
  assert (H3l : heap w3 !! l = Some o) by (apply lookup_insert_eq).
  rewrite (bind_returned _ _ _ _ _ (Merge_run _ _ _ _ _ H3o H3l)).
  eexists _, _. split; [reflexivity|]. split; [|split].
  - rewrite setHeap_heap. apply lookup_insert_eq.
  - intros l' v Hl'. rewrite setHeap_heap. apply lookup_fresh_ne.
    now apply lookup_fresh_ne.
  - simpl. unfold w2. now rewrite getDeny_evals.
Qed.

(** Folding [Merge_spec] over a list of outputs: allow is the disjunction of
    all, and the denial is the latest present one. *)
Lemma fold_Merge_spec outs acc :
  fold_left Merge_spec outs acc =
  {| Allow := Allow acc || existsb Allow outs;
     Deny := match lastDenial outs with
             | Some d => Some d
             | None => Deny acc
             end |}.
Proof.
  revert acc. induction outs as [|o outs IH]; intros acc.
  - destruct acc as [a d]. simpl. now rewrite orb_false_r.
  - cbn [fold_left existsb lastDenial]. rewrite IH. unfold Merge_spec. simpl.
    rewrite orb_assoc. now destruct (lastDenial outs), (Deny o).
Qed.

(** When the loop of [Evaluate] returns an output, it is the fold of
    [Merge_spec] over the outputs of the queries, in their order. *)
Lemma evaluateLoop_ok (input : PolicyInput) qs :
  forall output acc w p w',
    heap w !! output = Some acc ->
    evaluateLoop input qs output w = (Returned (Ok p), w') ->
    exists outs,
      Forall2 (producedBy input) qs outs /\
      heap w' !! p = Some (fold_left Merge_spec outs acc).
Proof.
  induction qs as [|query qs IH]; intros output acc w p w' Hacc Hrun.
  - cbn in Hrun. injection Hrun as <- <-. exists []. split; [constructor|done].
  - destruct (Eval query input) as [[|rs0 rest]|err] eqn:HE.
    1, 3: cbn [evaluateLoop] in Hrun; unfold bind at 1 in Hrun;
          rewrite evaluateQuery_run, HE in Hrun; discriminate.
    destruct (denialOf (Bindings rs0)) as [deny|msg] eqn:HD.
    + destruct (evaluateLoop_step input query qs output acc rs0 rest deny w HE HD Hacc)
        as (output' & w1 & Heq & Hout & _ & _).
      rewrite Heq in Hrun.
      destruct (IH _ _ _ _ _ Hout Hrun) as (outs & HF & Hp).
      exists ({| Allow := getAllow (Bindings rs0); Deny := deny |} :: outs).
      split; [|exact Hp].
      constructor; [|exact HF]. exists rs0, rest. now rewrite HE, HD.
    + cbn [evaluateLoop] in Hrun; unfold bind at 1 in Hrun.
      rewrite evaluateQuery_run, HE in Hrun. cbv zeta in Hrun.
      rewrite HD in Hrun. discriminate.
Qed.

Lemma lastDenial_app pre post :
  lastDenial (pre ++ post) =
  match lastDenial post with
  | Some d => Some d
  | None => lastDenial pre
  end.
Proof.
  induction pre as [|o pre IH]; simpl.
  - now destruct (lastDenial post).
  - rewrite IH. now destruct (lastDenial post).
Qed.

Lemma lastDenial_absent post :
  Forall (fun o => Deny o = None) post -> lastDenial post = None.
Proof. induction 1 as [|o post Ho _ IH]; simpl; [done|]. now rewrite IH. Qed.

(** C2: [Merge] returns an output whose allow is the disjunction of the two
    allows and whose denial is the other's denial when that is present and
    the running one otherwise.  Hence the output of [Evaluate] carries the
    disjunction of the allows of the queries' outputs and the denial of the
    latest query that produced one: a present denial overrides every earlier
    one, and later outputs without a denial do not erase it. *)
Theorem Merge_latest_denial_wins :
  (forall output other running o w,
     heap w !! output = Some running ->
     heap w !! other = Some o ->
     exists merged w',
       Merge output other w = (Returned merged, w') /\
       heap w' !! merged =
         Some {| Allow := Allow running || Allow o;
                 Deny := match Deny o with
                         | Some d => Some d
                         | None => Deny running
                         end |}) /\
  (forall (e : PolicyEvaluator) (input : PolicyInput) w p w',
     Evaluate e input w = (Returned (Ok p), w') ->
     exists outs,
       Forall2 (producedBy input) (queries e) outs /\
       heap w' !! p = Some {| Allow := existsb Allow outs; Deny := lastDenial outs |}) /\
  (forall earlier o later d,
     Deny o = Some d ->
     Forall (fun o' => Deny o' = None) later ->
     lastDenial (earlier ++ o :: later) = Some d).
Proof.
  split; [|split].
  - intros output other running o w Hr Ho.
    eexists _, _. split; [exact (Merge_run _ _ _ _ _ Hr Ho)|].
    rewrite setHeap_heap. apply lookup_insert_eq.
  - intros e input w p w' Hrun. unfold Evaluate in Hrun.
    rewrite (bind_returned _ _ _ _ _ (alloc_run _ _)) in Hrun.
    eapply evaluateLoop_ok in Hrun; [|rewrite setHeap_heap; apply lookup_insert_eq].
    destruct Hrun as (outs & HF & Hp). exists outs. split; [exact HF|].
    rewrite Hp, fold_Merge_spec. simpl. now destruct (lastDenial outs).
  - intros earlier o later d Hd Hlater.
    rewrite lastDenial_app. cbn [lastDenial].
    now rewrite (lastDenial_absent _ Hlater), Hd.
Qed.

Lemma evaluateLoop_cons (input : PolicyInput) query qs output w :
  evaluateLoop input (query :: qs) output w =
  match evaluateQuery input query w with
  | (Returned (Ok o), w1) =>
      match Merge output o w1 with
      | (Returned output', w2) => evaluateLoop input qs output' w2
      | (Panicked msg, w2) => (Panicked msg, w2)
      end
  | (Returned (Err err), w1) => (Returned (Err err), w1)
  | (Panicked msg, w1) => (Panicked msg, w1)
  end.
Proof.
  cbn [evaluateLoop]. unfold bind at 1.
  destruct (evaluateQuery input query w) as [[[o|err]|msg] w1]; reflexivity.
Qed.

Lemma Merge_evals output other w : evals (snd (Merge output other w)) = evals w.
Proof.
  rewrite Merge_cases.
  destruct (heap w !! output); [destruct (heap w !! other)|]; reflexivity.
Qed.

(** The executions the loop of [Evaluate] makes are appended to the record,
    and when one of them failed the loop returns an error. *)
Lemma evaluateLoop_trace (input : PolicyInput) qs :
  forall output w,
  exists executed,
    evals (snd (evaluateLoop input qs output w)) = evals w ++ executed /\
    (Exists failedEval executed ->
     exists err, fst (evaluateLoop input qs output w) = Returned (Err err)).
Proof.
  induction qs as [|query qs IH]; intros output w.
  - exists []. split; [now rewrite app_nil_r|]. intros H. inversion H.
  - rewrite evaluateLoop_cons, evaluateQuery_run. cbv zeta.
    destruct (Eval query input) as [[|rs0 rest]|err] eqn:HE.
    + exists [Ok []]. split; [reflexivity|]. intros _. now eexists.
    + set (w2 := snd (getDeny (Bindings rs0) (addEval (Ok (rs0 :: rest)) w))).
      assert (Hw2 : evals w2 = evals w ++ [Ok (rs0 :: rest)])
        by (unfold w2; now rewrite getDeny_evals).
      assert (Hnot : forall l, Exists failedEval (Ok (rs0 :: rest) :: l) ->
                               Exists failedEval l)
        by (intros l H; inversion H; [contradiction|assumption]).
      destruct (denialOf (Bindings rs0)) as [deny|msg].
      * set (w3 := setHeap _ w2).
        pose proof (Merge_evals output (fresh (dom (heap w))) w3) as HM.
        destruct (Merge output (fresh (dom (heap w))) w3) as [[output'|msg] w4];
          simpl in HM.
        -- destruct (IH output' w4) as (executed & He & Hfail).
           exists (Ok (rs0 :: rest) :: executed). split.
           ++ rewrite He, HM. unfold w3. simpl. rewrite Hw2.
              now rewrite <- app_assoc.
           ++ intros H. apply Hfail, Hnot, H.
        -- exists [Ok (rs0 :: rest)]. split.
           ++ simpl. rewrite HM. exact Hw2.
           ++ intros H. apply Hnot in H. inversion H.
      * exists [Ok (rs0 :: rest)]. split; [exact Hw2|].
        intros H. apply Hnot in H. inversion H.
    + exists [Err err]. split; [reflexivity|]. intros _. now eexists.
Qed.

(** The loop of [Evaluate] stops with an error at the first query whose
    execution fails, whatever the queries before it contributed. *)
Lemma evaluateLoop_fail_stop (input : PolicyInput) pre :
  forall query post output acc w,
    heap w !! output = Some acc ->
    Forall (fun q => exists o, producedBy input q o) pre ->
    failedEval (Eval query input) ->
    exists err w',
      evaluateLoop input (pre ++ query :: post) output w = (Returned (Err err), w').
Proof.
  induction pre as [|q pre IH]; intros query post output acc w Hacc Hpre Hfail.
  - cbn [app]. rewrite evaluateLoop_cons, evaluateQuery_run. cbv zeta.
    destruct (Eval query input) as [[|rs0 rest]|err].
    + now eexists _, _.
    + contradiction.
    + now eexists _, _.
  - inversion Hpre as [|q' pre' (o & rs0 & rest & HE & _ & HD) Hpre']; subst.
    destruct (evaluateLoop_step input q (pre ++ query :: post) output acc
                rs0 rest (Deny o) w HE HD Hacc) as (output' & w1 & Heq & Hout & _).
    cbn [app]. rewrite Heq. now apply (IH _ _ _ _ _ Hout).
Qed.

(** C3: [Evaluate] is fail-stop.  Whenever, in a call of [Evaluate], the
    execution of a query returns an error or yields no result, the call
    returns an error, and so no PolicyOutput: what the queries evaluated
    before contributed is dropped.  In particular, when the queries before
    the failing one were each evaluated to an output, [Evaluate] returns an
    error. *)
Theorem Evaluate_fail_stop (e : PolicyEvaluator) (input : PolicyInput) (w : World) :
  (exists executed,
     evals (snd (Evaluate e input w)) = evals w ++ executed /\
     (Exists failedEval executed ->
      exists err, fst (Evaluate e input w) = Returned (Err err))) /\
  (forall pre query post,
     queries e = pre ++ query :: post ->
     Forall (fun q => exists o, producedBy input q o) pre ->
     failedEval (Eval query input) ->
     exists err, fst (Evaluate e input w) = Returned (Err err)).
Proof.
  unfold Evaluate. rewrite (bind_returned _ _ _ _ _ (alloc_run _ _)). split.
  - edestruct (evaluateLoop_trace input (queries e)) as (executed & He & Hfail).
    exists executed. split; [exact He|exact Hfail].
  - intros pre query post -> Hpre Hfail.
    edestruct (evaluateLoop_fail_stop input pre query post) as (err & w' & Hrun);
      [|exact Hpre|exact Hfail|].
    + rewrite setHeap_heap. apply lookup_insert_eq.
    + exists err. now rewrite Hrun.
Qed.

(** C4: the allow extracted from the bindings is true exactly when [result]
    is an object whose [allow] field is the boolean true.  [getAllow] is a
    total function into [bool]: in every other case (no object under
    [result], [allow] absent or not a boolean) it returns false, and it has no
    error to raise. *)
Theorem getAllow_true_iff (vars : Vars) :
  (getAllow vars = true <->
   exists m, vars !! "result" = Some (VObject m) /\ m !! "allow" = Some (VBool true)) /\
  ((forall m, vars !! "result" <> Some (VObject m)) -> getAllow vars = false) /\
  (forall m, vars !! "result" = Some (VObject m) ->
             (forall b, m !! "allow" <> Some (VBool b)) -> getAllow vars = false).
Proof.
  unfold getAllow. split; [|split].
  - split.
    + destruct (vars !! "result") as [[| | | | |m]|]; try discriminate.
      destruct (m !! "allow") as [[|b| | | |]|] eqn:Hm; try discriminate.
      intros ->. now exists m.
    + intros (m & -> & ->). reflexivity.
  - intros H. destruct (vars !! "result") as [[| | | | |m]|]; try reflexivity.
    now destruct (H m).
  - intros m -> H. destruct (m !! "allow") as [[|b| | | |]|]; try reflexivity.
    now destruct (H b).
Qed.

(** C10: [Merge] writes to no object that existed before the call.  It
    returns a newly allocated PolicyOutput; every object of the heap before
    the call, the receiver and the argument among them, has the same fields
    afterwards; the log and the record of executions are untouched.  The
    same holds of every turn of the loop of [Evaluate], so merging never
    changes a query's output or an earlier accumulated output. *)
Theorem Merge_frame :
  (forall output other w,
     (forall l v, heap w !! l = Some v ->
                  heap (snd (Merge output other w)) !! l = Some v) /\
     logs (snd (Merge output other w)) = logs w /\
     evals (snd (Merge output other w)) = evals w /\
     (forall merged, fst (Merge output other w) = Returned merged ->
                     heap w !! merged = None /\
                     is_Some (heap (snd (Merge output other w)) !! merged))) /\
  (forall (input : PolicyInput) qs output w l v,
     heap w !! l = Some v ->
     heap (snd (evaluateLoop input qs output w)) !! l = Some v).
Proof.
  split.
  - intros output other w. rewrite Merge_cases.
    destruct (heap w !! output) as [o|]; [destruct (heap w !! other) as [x|]|];
      simpl; (split; [|split; [|split]]); try done.
    + intros l v Hl. now apply lookup_fresh_ne.
    + intros merged [= <-]. split; [apply fresh_unused|].
      rewrite lookup_insert_eq. now eexists.
  - intros input qs. induction qs as [|query qs IH]; intros output w l v Hl.
    + exact Hl.
    + rewrite evaluateLoop_cons, evaluateQuery_run. cbv zeta.
      destruct (Eval query input) as [[|rs0 rest]|err]; try exact Hl.
      set (w2 := snd (getDeny (Bindings rs0) (addEval (Ok (rs0 :: rest)) w))).
      assert (Hw2 : heap w2 !! l = Some v)
        by (unfold w2; now rewrite getDeny_heap).
      destruct (denialOf (Bindings rs0)) as [deny|msg]; [|exact Hw2].
      set (w3 := setHeap _ w2).
      assert (Hw3 : heap w3 !! l = Some v) by (now apply lookup_fresh_ne).
      rewrite Merge_cases.
      destruct (heap w3 !! output) as [o|]; [|exact Hw3].
      destruct (heap w3 !! fresh (dom (heap w))) as [x|]; [|exact Hw3].
      apply IH. rewrite setHeap_heap. now apply lookup_fresh_ne.
Qed.

(** C5: when [deny] is a pair whose status does not read as an integer,
    [getDeny] logs a diagnostic and returns no denial; [evaluateQuery] still
    returns an output, with the allow of the bindings and no denial, and the
    loop of [Evaluate] goes on with the merged output.  When the status reads
    as an integer, the denial carries it together with the message
    stringified by [Sprint], whatever the message is. *)
Theorem getDeny_bad_status_is_not_fatal (vars m : Vars) (status message : value) :
  vars !! "result" = Some (VObject m) ->
  m !! "deny" = Some (VArray [status; message]) ->
  (Atoi (Sprint status) = None ->
   (forall w,
      getDeny vars w =
      (Returned None, addLog {| Level := "error"; Msg := "invalid type in deny" |} w)) /\
   (forall (input : PolicyInput) query rest w,
      Eval query input = Ok ({| Bindings := vars |} :: rest) ->
      exists o w',
        evaluateQuery input query w = (Returned (Ok o), w') /\
        heap w' !! o = Some {| Allow := getAllow vars; Deny := None |}) /\
   (forall (input : PolicyInput) query rest qs output acc w,
      Eval query input = Ok ({| Bindings := vars |} :: rest) ->
      heap w !! output = Some acc ->
      exists output' w',
        evaluateLoop input (query :: qs) output w = evaluateLoop input qs output' w' /\
        heap w' !! output' =
          Some {| Allow := Allow acc || getAllow vars; Deny := Deny acc |})) /\
  (forall n,
     Atoi (Sprint status) = Some n ->
     forall w,
       getDeny vars w =
       (Returned (Some {| Status := n; Message := Sprint message |}), w)).
Proof.
  intros Hres Hdeny.
  assert (Hrun : forall w,
            getDeny vars w =
            match Atoi (Sprint status) with
            | None => (Returned None,
                       addLog {| Level := "error"; Msg := "invalid type in deny" |} w)
            | Some n => (Returned (Some {| Status := n; Message := Sprint message |}), w)
            end).
  { intros w. unfold getDeny. rewrite Hres, Hdeny. cbn [index lookup list_lookup].
    cbv beta iota delta [bind ret]. now destruct (Atoi (Sprint status)). }
  split.
  - intros Hbad. rewrite Hbad in Hrun.
    assert (HD : denialOf vars = Returned None)
      by (unfold denialOf; now rewrite Hrun).
    split; [exact Hrun|]. split.
    + intros input query rest w HE. rewrite evaluateQuery_run, HE. cbv zeta.
      cbn [Bindings]. rewrite HD. eexists _, _. split; [reflexivity|].
      rewrite setHeap_heap. apply lookup_insert_eq.
    + intros input query rest qs output acc w HE Hacc.
      destruct (evaluateLoop_step input query qs output acc _ rest None w HE HD Hacc)
        as (output' & w' & Heq & Hout & _).
      exists output', w'. split; [exact Heq|]. exact Hout.
  - intros n Hn w. now rewrite Hrun, Hn.
Qed.

End WithInput.

Section WithPackages.
Context {RequestHTTP RequestSession Store ConfigPolicy PPL : Type}.
Variable SubPolicies : ConfigPolicy -> list SubPolicy.
Variable ToPPL : ConfigPolicy -> PPL.
Variable GenerateRegoFromPolicy : PPL -> res string.
Variable PrepareForEval :
  Store -> string -> res (PreparedEvalQuery RequestHTTP RequestSession).

#[local] Abbreviation nonEmpty := (fun src : string => negb (String.eqb src "")).

Lemma appendNonEmpty_fold (srcs : list string) :
  forall scripts,
    fold_left
      (fun scripts src => if nonEmpty src then scripts ++ [src] else scripts)
      srcs scripts
    = scripts ++ List.filter nonEmpty srcs.
Proof.
  induction srcs as [|src srcs IH]; intros scripts.
  - simpl. now rewrite app_nil_r.
  - cbn [fold_left List.filter]. rewrite IH.
    destruct (nonEmpty src); [|reflexivity]. now rewrite <- app_assoc.
Qed.

Lemma collectScripts_filter base configPolicy :
  collectScripts SubPolicies base configPolicy =
  base :: List.filter nonEmpty (concat (map Rego (SubPolicies configPolicy))).
Proof.
  unfold collectScripts.
  enough (H : forall sps acc,
             fold_left
               (fun scripts sp =>
                  fold_left
                    (fun scripts src =>
                       if nonEmpty src then scripts ++ [src] else scripts)
                    (Rego sp) scripts)
               sps acc
             = acc ++ List.filter nonEmpty (concat (map Rego sps)))
    by (now rewrite H).
  induction sps as [|sp sps IH]; intros acc.
  - simpl. now rewrite app_nil_r.
  - cbn [fold_left map concat].
    now rewrite IH, appendNonEmpty_fold, List.filter_app, app_assoc.
Qed.

Lemma prepareLoop_ok store scripts :
  forall e e',
    prepareLoop PrepareForEval store scripts e = Ok e' <->
    exists qs,
      Forall2 (fun script q => PrepareForEval store script = Ok q) scripts qs /\
      queries e' = queries e ++ qs.
Proof.
  induction scripts as [|script rest IH]; intros e e'; cbn [prepareLoop].
  - split.
    + intros [= <-]. exists []. split; [constructor|now rewrite app_nil_r].
    + intros (qs & HF & Hq). inversion HF; subst. rewrite app_nil_r in Hq.
      destruct e, e'. simpl in Hq. now subst.
  - destruct (PrepareForEval store script) as [q|err] eqn:Hp.
    + rewrite IH. cbn [queries]. split.
      * intros (qs & HF & Hq). exists (q :: qs). split; [now constructor|].
        now rewrite Hq, <- app_assoc.
      * intros (qs & HF & Hq). inversion HF as [|s q' r qs' Hq' HF']; subst.
        rewrite Hp in Hq'. injection Hq' as <-. exists qs'. split; [exact HF'|].
        now rewrite Hq, <- app_assoc.
    + split; [discriminate|].
      intros (qs & HF & _). inversion HF; subst. congruence.
Qed.

Lemma prepareLoop_fails store pre :
  forall script post err e,
    Forall (fun s => exists q, PrepareForEval store s = Ok q) pre ->
    PrepareForEval store script = Err err ->
    prepareLoop PrepareForEval store (pre ++ script :: post) e = Err err.
Proof.
  induction pre as [|s pre IH]; intros script post err e Hpre Hfail.
  - cbn. now rewrite Hfail.
  - inversion Hpre as [|s' pre' (q & Hq) Hpre']; subst. cbn. rewrite Hq.
    now apply IH.
Qed.

(** C9 (as amended): the units compiled are the generated base program
    followed by the non-empty override fragments in the order supplied;
    construction returns an evaluator exactly when every unit compiles, with
    the compiled queries in that order; and when the generation of the base
    program or the compilation of a unit fails, no evaluator is returned and
    the error returned is that very error, as the failing step gave it. *)
Theorem NewPolicyEvaluator_units (store : Store) (configPolicy : ConfigPolicy) :
  match GenerateRegoFromPolicy (ToPPL configPolicy) with
  | Err err =>
      NewPolicyEvaluator SubPolicies ToPPL GenerateRegoFromPolicy PrepareForEval
        store configPolicy = Err err
  | Ok base =>
      let scripts := collectScripts SubPolicies base configPolicy in
      scripts =
        base :: List.filter nonEmpty (concat (map Rego (SubPolicies configPolicy))) /\
      (forall e,
         NewPolicyEvaluator SubPolicies ToPPL GenerateRegoFromPolicy PrepareForEval
           store configPolicy = Ok e <->
         Forall2 (fun script q => PrepareForEval store script = Ok q)
           scripts (queries e)) /\
      (forall pre script post err,
         scripts = pre ++ script :: post ->
         Forall (fun s => exists q, PrepareForEval store s = Ok q) pre ->
         PrepareForEval store script = Err err ->
         NewPolicyEvaluator SubPolicies ToPPL GenerateRegoFromPolicy PrepareForEval
           store configPolicy = Err err)
  end.
Proof.
  unfold NewPolicyEvaluator.
  destruct (GenerateRegoFromPolicy (ToPPL configPolicy)) as [base|err]; [|reflexivity].
  cbv zeta. split; [apply collectScripts_filter|]. split.
  - intros e. rewrite prepareLoop_ok. cbn [queries app]. split.
    + intros (qs & HF & ->). exact HF.
    + intros HF. now exists (queries e).
  - intros pre script post err -> Hpre Hfail. now apply prepareLoop_fails.
Qed.

End WithPackages.

(** *** The theorems at sample data *)

Lemma getAllow_true_iff_witness :
  getAllow (Bindings (resultOf {[ "allow" := VBool true ]})) = true.
Proof.
  apply (proj1 (getAllow_true_iff _)).
  exists {[ "allow" := VBool true ]}. split; reflexivity.
Defined.

Lemma Merge_latest_denial_wins_witness :
  exists p w' outs,
    Evaluate {| queries := sampleQueries |} sampleInput emptyWorld
      = (Returned (Ok p), w') /\
    Forall2 (producedBy sampleInput) sampleQueries outs /\
    heap w' !! p = Some {| Allow := existsb Allow outs; Deny := lastDenial outs |} /\
    heap w' !! p =
      Some {| Allow := true; Deny := Some {| Status := 403; Message := "blocked" |} |}.
Proof.
  assert (Hrun : Evaluate {| queries := sampleQueries |} sampleInput emptyWorld
                 = (Returned (Ok 6%nat),
                    snd (Evaluate {| queries := sampleQueries |} sampleInput emptyWorld)))
    by (vm_compute; reflexivity).
  destruct (proj1 (proj2 Merge_latest_denial_wins) _ _ _ _ _ Hrun)
    as (outs & HF & Hp).
  eexists _, _, outs. split; [exact Hrun|]. split; [exact HF|]. split; [exact Hp|].
  vm_compute. reflexivity.
Defined.

Lemma Evaluate_fail_stop_witness :
  exists err,
    fst (Evaluate
           {| queries := [ constQuery (Ok [resultOf {[ "allow" := VBool true ]}]);
                           constQuery (Ok []) ] |}
           sampleInput emptyWorld)
    = Returned (Err err).
Proof.
  apply (proj2 (Evaluate_fail_stop _ sampleInput emptyWorld)
           [constQuery (Ok [resultOf {[ "allow" := VBool true ]}])]
           (constQuery (Ok [])) []).
  - reflexivity.
  - constructor; [|constructor].
    exists {| Allow := true; Deny := None |}, (resultOf {[ "allow" := VBool true ]}), [].
    split; [reflexivity|]. split; vm_compute; reflexivity.
  - exact I.
Defined.

Lemma getDeny_bad_status_is_not_fatal_witness :
  getDeny (Bindings (resultOf malformedFields)) emptyWorld =
  (Returned None,
   addLog {| Level := "error"; Msg := "invalid type in deny" |} emptyWorld).
Proof.
  apply (proj1 (proj1 (@getDeny_bad_status_is_not_fatal unit unit
                         (Bindings (resultOf malformedFields)) malformedFields
                         (VString "forbidden") (VString "blocked")
                         eq_refl eq_refl)
                  eq_refl)).
Defined.

Lemma Merge_frame_witness :
  heap (snd (Merge 0%nat 0%nat
               {| heap := {[ 0%nat := {| Allow := true; Deny := None |} ]};
                  logs := []; evals := [] |})) !! 0%nat
  = Some {| Allow := true; Deny := None |}.
Proof.
  apply (proj1 (proj1 (@Merge_frame unit unit) 0%nat 0%nat _)). reflexivity.
Defined.

Lemma NewPolicyEvaluator_units_witness :
  sampleNew [ {| Rego := [""; "allow = true"] |}; {| Rego := ["bad"; "deny = false"] |} ]
  = Err (ExternalError "rego_parse_error").
Proof.
  pose proof (NewPolicyEvaluator_units (fun c => c) (fun _ => tt) sampleGenerate
                samplePrepare tt
                [ {| Rego := [""; "allow = true"] |};
                  {| Rego := ["bad"; "deny = false"] |} ]) as H.
  cbn in H. destruct H as (_ & _ & H).
  apply (H ["package pomerium.policy"; "allow = true"] "bad" ["deny = false"]).
  - reflexivity.
  - repeat constructor; eexists; reflexivity.
  - reflexivity.
Defined.

(** C9 (as stated, refuted): a configuration whose first override fragment
    does not compile, and one whose second does not.  The failing units stand
    at different positions, yet construction returns the same error in both
    cases: the compiler's own, which wraps nothing. *)
Lemma NewPolicyEvaluator_error_not_wrapped :
  sampleNew [ {| Rego := ["bad"] |} ] = Err (ExternalError "rego_parse_error") /\
  sampleNew [ {| Rego := ["allow = true"; "bad"] |} ]
    = Err (ExternalError "rego_parse_error") /\
  samplePrepare tt "bad" = Err (ExternalError "rego_parse_error") /\
  ~ wraps (ExternalError "rego_parse_error") (ExternalError "rego_parse_error").
Proof.
  repeat split; try reflexivity. intros [format H]. discriminate H.
Qed.

End EvaluatorProofs.

(** ** Properties of the generator *)

Module GeneratorProofs.
Import Go Generator.

(** *** Names made by [NewRule] *)

(** The character [c] occurs in [s]. *)
Fixpoint occurs (c : ascii) (s : string) : Prop :=
  match s with
  | EmptyString => False
  | String c' r => c' = c \/ occurs c r
  end.

Lemma append_nil s : "" +:+ s = s.
Proof. reflexivity. Qed.

Lemma append_cons c n s : String c n +:+ s = String c (n +:+ s).
Proof. reflexivity. Qed.

Lemma string_of_uint_digits d : ~ occurs "_" (NilEmpty.string_of_uint d).
Proof.
  induction d; simpl; [intros [] | intros [H|H]; [discriminate H | auto] ..].
Qed.

(** The decimal form of an integer holds no underscore. *)
Lemma formatInt_no_underscore z : ~ occurs "_" (formatInt z).
Proof.
  assert (Hu : forall d, ~ occurs "_" (NilZero.string_of_uint d)).
  { intros d. destruct d.
    1: intros [H|[]]; discriminate H.
    all: apply string_of_uint_digits. }
  unfold formatInt. destruct (Z.to_int z) as [d|d]; cbn [NilZero.string_of_int].
  - apply Hu.
  - intros [H|H]; [discriminate H|]. now apply Hu in H.
Qed.

(** Distinct integers have distinct decimal forms. *)
Lemma formatInt_inj a b : formatInt a = formatInt b -> a = b.
Proof.
  unfold formatInt. intros H. apply DecimalZ.to_int_inj.
  assert (Hnn : forall z, Z.to_int z <> Decimal.Pos Decimal.Nil /\
                          Z.to_int z <> Decimal.Neg Decimal.Nil).
  { intros [|p|p]; simpl; split; try discriminate;
      intros [= Hp]; now apply DecimalPos.Unsigned.to_uint_nonnil in Hp. }
  assert (Hs : Some (Z.to_int a) = Some (Z.to_int b)).
  { rewrite <- (NilZero.isi (Z.to_int a)) by apply Hnn.
    rewrite <- (NilZero.isi (Z.to_int b)) by apply Hnn.
    now rewrite H. }
  now injection Hs.
Qed.

(** A name [<base>_<n>] determines its base and its number: the text after
    the last underscore is the number. *)
Lemma sprintf_inj n1 n2 s1 s2 :
  ~ occurs "_" s1 -> ~ occurs "_" s2 ->
  n1 +:+ "_" +:+ s1 = n2 +:+ "_" +:+ s2 ->
  n1 = n2 /\ s1 = s2.
Proof.
  assert (Hocc : forall n s, occurs "_" (n +:+ "_" +:+ s)).
  { induction n as [|c n IH]; intros s.
    - left. reflexivity.
    - right. apply IH. }
  intros H1 H2. revert n2.
  induction n1 as [|c1 n1 IH]; intros [|c2 n2] H;
    rewrite ?append_nil, ?append_cons, ?append_nil in H.
  - injection H as H. now split.
  - injection H as Hc Hs. subst s1. destruct H1. exact (Hocc n2 s2).
  - injection H as Hc Hs. subst s2. destruct H2. exact (Hocc n1 s1).
  - injection H as Hc Hs. destruct (IH _ Hs) as [-> ->]. now subst.
Qed.

Lemma ruleName_inj base1 base2 id1 id2 :
  base1 +:+ "_" +:+ formatInt id1 = base2 +:+ "_" +:+ formatInt id2 ->
  base1 = base2 /\ id1 = id2.
Proof.
  intros H. apply sprintf_inj in H; try apply formatInt_no_underscore.
  destruct H as [-> H]. split; [reflexivity|]. now apply formatInt_inj.
Qed.

(** Wrapping changes an integer by a multiple of [2 ^ 64], and leaves an
    integer of the range as it is. *)
Lemma wrap64_congr z : exists q, wrap64 z = z + q * 2 ^ 64.
Proof.
  exists (- ((z + 2 ^ 63) / 2 ^ 64)). unfold wrap64.
  pose proof (Z.div_mod (z + 2 ^ 63) (2 ^ 64)). lia.
Qed.

Lemma wrap64_in_range z : minInt <= z <= maxInt -> wrap64 z = z.
Proof.
  unfold wrap64, minInt, maxInt. intros H.
  rewrite Z.mod_small; lia.
Qed.

Lemma lookup_map {A B} (f : A -> B) (l : list A) (i : nat) :
  map f l !! i = f <$> l !! i.
Proof.
  revert i. induction l as [|x l IH]; intros [|i]; simpl; try reflexivity.
  apply IH.
Qed.

Section WithCriterion.
Context {Criterion : Type}.
#[local] Abbreviation Generator := (Generator Criterion).

Lemma NewRule_name (g : Generator) name :
  ruleName (fst (NewRule g name)) = name +:+ "_" +:+ formatInt (idOf g name).
Proof. reflexivity. Qed.

Lemma NewRule_idOf (g : Generator) name other :
  idOf (snd (NewRule g name)) other =
  if decide (name = other) then wrap64 (idOf g name + 1) else idOf g other.
Proof.
  unfold NewRule, idOf at 1. cbn [snd ids]. rewrite lookup_insert.
  destruct (decide (name = other)); reflexivity.
Qed.

Lemma NewRules_cons (g : Generator) name rest :
  NewRules g (name :: rest) =
  (fst (NewRule g name) :: fst (NewRules (snd (NewRule g name)) rest),
   snd (NewRules (snd (NewRule g name)) rest)).
Proof.
  cbn [NewRules]. unfold NewRule. cbn [fst snd].
  now destruct (NewRules _ rest).
Qed.

(** Every rule returned by a sequence of calls is named after a base and a
    number that is, up to wrap-around, the counter of that base at the start
    plus the number of calls made for it in between. *)
Lemma NewRules_numbers names :
  forall (g : Generator) r,
    In r (fst (NewRules g names)) ->
    exists base id k q,
      ruleName r = base +:+ "_" +:+ formatInt id /\
      0 <= k < Z.of_nat (length names) /\
      id = idOf g base + k + q * 2 ^ 64.
Proof.
  induction names as [|name rest IH]; intros g r Hin; [destruct Hin|].
  rewrite NewRules_cons in Hin. cbn [fst length] in *. destruct Hin as [<-|Hin].
  - exists name, (idOf g name), 0, 0. rewrite NewRule_name. split; [done|]. lia.
  - destruct (IH _ _ Hin) as (base & id & k & q & Hname & Hk & Hid).
    rewrite NewRule_idOf in Hid. destruct (decide (name = base)) as [->|Hne].
    + destruct (wrap64_congr (idOf g base + 1)) as [q' Hq'].
      exists base, id, (k + 1), (q + q'). split; [done|]. lia.
    + exists base, id, k, q. split; [done|]. lia.
Qed.

Lemma NewRules_NoDup names :
  forall g : Generator,
    Z.of_nat (length names) <= 2 ^ 64 ->
    NoDup (map ruleName (fst (NewRules g names))).
Proof.
  induction names as [|name rest IH]; intros g Hlen; [constructor|].
  rewrite NewRules_cons. cbn [fst map length] in *. constructor.
  - rewrite list_elem_of_In, in_map_iff. intros (r & Hr & Hin).
    apply NewRules_numbers in Hin.
    destruct Hin as (base & id & k & q & Hname & Hk & Hid).
    rewrite Hname, NewRule_name in Hr. apply ruleName_inj in Hr.
    destruct Hr as [-> ->]. rewrite NewRule_idOf in Hid.
    destruct (decide (name = name)) as [_|]; [|done].
    destruct (wrap64_congr (idOf g name + 1)) as [q' Hq'].
    change (2 ^ 64) with 18446744073709551616 in *. lia.
  - apply IH. lia.
Qed.

(** C6: every call of [NewRule] returns a rule named [<base>_<n>], where [n]
    is the counter of the base at the time of the call, and then advances
    that counter by one (a 64-bit [int], so by one below the largest [int]),
    leaving the counters of the other bases and the criteria alone.  Hence
    the names returned by any sequence of calls on one generator, of at most
    [2 ^ 64] calls, are pairwise distinct: in particular two calls for the
    same base, as made for two criteria of one kind, return different
    names. *)
Theorem NewRule_names_distinct :
  (forall (g : Generator) base,
     ruleName (fst (NewRule g base)) = base +:+ "_" +:+ formatInt (idOf g base) /\
     idOf (snd (NewRule g base)) base = wrap64 (idOf g base + 1) /\
     (minInt <= idOf g base < maxInt ->
      idOf (snd (NewRule g base)) base = idOf g base + 1) /\
     (forall other, other <> base ->
                    idOf (snd (NewRule g base)) other = idOf g other) /\
     criteria (snd (NewRule g base)) = criteria g) /\
  (forall (g : Generator) bases,
     Z.of_nat (length bases) <= 2 ^ 64 ->
     NoDup (map ruleName (fst (NewRules g bases)))) /\
  (forall (g : Generator) before base between after i j ri rj,
     let names := before ++ base :: between ++ base :: after in
     let returned := fst (NewRules g names) in
     Z.of_nat (length names) <= 2 ^ 64 ->
     i = length before ->
     j = (length before + 1 + length between)%nat ->
     returned !! i = Some ri ->
     returned !! j = Some rj ->
     ruleName ri <> ruleName rj).
Proof.
  split; [|split].
  - intros g base. split; [apply NewRule_name|]. split; [|split; [|split]].
    + rewrite NewRule_idOf. now destruct (decide (base = base)).
    + intros H. rewrite NewRule_idOf. destruct (decide (base = base)); [|done].
      apply wrap64_in_range. unfold minInt, maxInt in *. lia.
    + intros other Hne. rewrite NewRule_idOf.
      now destruct (decide (base = other)); [subst|].
    + reflexivity.
  - intros g bases. apply NewRules_NoDup.
  - intros g before base between after i j ri rj names returned Hlen -> -> Hi Hj Heq.
    pose proof (NewRules_NoDup names g Hlen) as Hnd. fold returned in Hnd.
    rewrite NoDup_alt in Hnd.
    specialize (Hnd (length before) (length before + 1 + length between)%nat
                  (ruleName ri)).
    rewrite !lookup_map in Hnd.
    rewrite Hi in Hnd. rewrite Hj in Hnd. cbn in Hnd.
    rewrite Heq in Hnd. specialize (Hnd eq_refl eq_refl). lia.
Qed.

End WithCriterion.

(** *** The stable sort *)

Section StableSort.
Context {A : Type} (key : A -> nat).

#[local] Abbreviation less := (fun x y : A => (key x <? key y)%nat).
#[local] Abbreviation keyIs := (fun (k : nat) (x : A) => (key x =? k)%nat).
#[local] Abbreviation ascending := (fun x y : A => (key x <= key y)%nat).

Lemma insertStable_In x l y :
  In y (sort.insertStable less x l) <-> y = x \/ In y l.
Proof.
  induction l as [|z l IH]; simpl.
  - intuition.
  - destruct (key z <? key x)%nat; simpl; [rewrite IH|]; intuition.
Qed.

Lemma insertStable_Permutation x l : sort.insertStable less x l ≡ₚ x :: l.
Proof.
  induction l as [|z l IH]; simpl; [done|].
  destruct (key z <? key x)%nat; [|done].
  rewrite IH. apply Permutation_swap.
Qed.

(** Among the elements of one key, insertion puts the new element first: it
    goes before the first element that is not less, and every element before
    that one has a smaller key. *)
Lemma insertStable_filter k x l :
  List.filter (keyIs k) (sort.insertStable less x l) =
  if (key x =? k)%nat then x :: List.filter (keyIs k) l else List.filter (keyIs k) l.
Proof.
  induction l as [|z l IH]; simpl; [reflexivity|].
  destruct (key z <? key x)%nat eqn:Hlt; simpl; [|reflexivity].
  rewrite IH. apply Nat.ltb_lt in Hlt.
  destruct (key x =? k)%nat eqn:Hx; [|reflexivity].
  apply Nat.eqb_eq in Hx.
  destruct (key z =? k)%nat eqn:Hz; [|reflexivity].
  apply Nat.eqb_eq in Hz. lia.
Qed.

Lemma insertStable_sorted x l :
  StronglySorted ascending l ->
  StronglySorted ascending (sort.insertStable less x l).
Proof.
  induction 1 as [|z l Hl IH Hz]; simpl; [repeat constructor|].
  destruct (key z <? key x)%nat eqn:Hlt.
  - apply Nat.ltb_lt in Hlt. constructor; [exact IH|].
    rewrite List.Forall_forall. intros y Hy.
    apply insertStable_In in Hy. destruct Hy as [->|Hy]; [lia|].
    rewrite List.Forall_forall in Hz. now apply Hz.
  - apply Nat.ltb_ge in Hlt. constructor; [now constructor|].
    constructor; [exact Hlt|].
    eapply List.Forall_impl; [|exact Hz]. simpl. intros; lia.
Qed.

Lemma SliceStable_sorted l : StronglySorted ascending (sort.SliceStable less l).
Proof.
  induction l as [|x l IH]; simpl; [constructor|]. now apply insertStable_sorted.
Qed.

Lemma SliceStable_filter k l :
  List.filter (keyIs k) (sort.SliceStable less l) = List.filter (keyIs k) l.
Proof.
  induction l as [|x l IH]; simpl; [reflexivity|].
  now rewrite insertStable_filter, IH.
Qed.

Lemma SliceStable_Permutation l : sort.SliceStable less l ≡ₚ l.
Proof.
  induction l as [|x l IH]; simpl; [done|].
  now rewrite insertStable_Permutation, IH.
Qed.

(** In a sorted list an element of smaller key stands before one of larger
    key. *)
Lemma sorted_lookup_lt (l : list A) i j x y :
  StronglySorted ascending l ->
  l !! i = Some x -> l !! j = Some y ->
  (key x < key y)%nat -> (i < j)%nat.
Proof.
  intros Hs. revert i j. induction Hs as [|z l Hl IH Hz]; intros i j Hi Hj Hlt.
  - discriminate Hi.
  - destruct j as [|j].
    + injection Hj as ->. destruct i as [|i].
      * injection Hi as ->. lia.
      * rewrite List.Forall_forall in Hz.
        assert (In x l) by (apply list_elem_of_In; eapply list_elem_of_lookup_2, Hi).
        specialize (Hz x ltac:(assumption)). simpl in Hz. lia.
    + destruct i as [|i]; [lia|]. apply -> Nat.succ_lt_mono.
      now apply (IH i j).
Qed.

End StableSort.

(** *** The module returned by [Generate] *)

Lemma arity_unlocated r : ast.arity (ast.unlocated r) = ast.arity r.
Proof. now destruct r. Qed.

Section WithPackages.
Context {Criterion ParserCriterion : Type}.
Variables generateAndRule generateOrRule generateNotRule generateNorRule
  : conditionalGenerator Criterion ParserCriterion.
Variable MustParseRule : string -> ast.Rule.
Variable Add : ast.RuleSet -> ast.Rule -> ast.RuleSet.
Variable RuleString : ast.Rule -> string.

#[local] Abbreviation Generate :=
  (Generate generateAndRule generateOrRule generateNotRule generateNorRule
     MustParseRule Add RuleString).
#[local] Abbreviation buildRules :=
  (buildRules generateAndRule generateOrRule generateNotRule generateNorRule
     MustParseRule Add).
#[local] Abbreviation fieldsOf :=
  (fieldsOf generateAndRule generateOrRule generateNotRule generateNorRule).

(** Giving positions to a rule and its else chain changes locations only. *)
Fixpoint unlocated_locateRule (r : ast.Rule) :
  forall i, ast.unlocated (fst (locateRule RuleString r i)) = ast.unlocated r.
Proof.
  destruct r as [loc default head body [e|]]; intros i.
  - cbn. specialize (unlocated_locateRule e (wrap64 (i + 1))).
    destruct (locateRule RuleString e (wrap64 (i + 1))) as [e' i'].
    cbn in *. now rewrite unlocated_locateRule.
  - reflexivity.
Qed.

Lemma unlocated_locateRules rs :
  forall i, map ast.unlocated (locateRules RuleString rs i) = map ast.unlocated rs.
Proof.
  induction rs as [|r rs IH]; intros i; [reflexivity|].
  cbn [locateRules]. pose proof (unlocated_locateRule r i) as Hr.
  destruct (locateRule RuleString r i) as [r' i']. cbn [fst map] in *.
  now rewrite Hr, IH.
Qed.

(** C7: in the module returned by [Generate], a rule with fewer positional
    arguments stands before every rule with more, and the rules are those of
    the rule set as it was built, reordered so that rules with the same
    number of arguments keep their relative order (locations, which
    [Generate] assigns afterwards, left aside). *)
Theorem Generate_orders_rules_by_arity (g g' : Generator Criterion)
  (policy : parser.Policy ParserCriterion) (module : ast.Module_) :
  Generate g policy = (Ok module, g') ->
  (forall i j r1 r2,
     ast.Rules module !! i = Some r1 ->
     ast.Rules module !! j = Some r2 ->
     (ast.arity r1 < ast.arity r2)%nat ->
     (i < j)%nat) /\
  exists built,
    buildRules policy g = (Ok built, g') /\
    map ast.unlocated (ast.Rules module) ≡ₚ map ast.unlocated built /\
    forall n,
      List.filter (fun r => (ast.arity r =? n)%nat) (map ast.unlocated (ast.Rules module))
      = List.filter (fun r => (ast.arity r =? n)%nat) (map ast.unlocated built).
Proof.
  unfold Generator.Generate.
  destruct (Generator.buildRules _ _ _ _ _ _ policy g) as [[built|err] g1];
    [|discriminate].
  intros [= <- <-]. cbn [ast.Rules].
  set (sorted := sort.SliceStable fewerArgs built).
  pose proof (unlocated_locateRules sorted 1) as Hloc.
  assert (Hkey : forall (l : list ast.Rule) i r,
            l !! i = Some r ->
            map ast.unlocated l !! i = Some (ast.unlocated r))
    by (intros l i r H; now rewrite lookup_map, H).
  split.
  - intros i j r1 r2 H1 H2 Hlt.
    apply Hkey in H1, H2. rewrite Hloc in H1, H2.
    rewrite lookup_map in H1, H2.
    destruct (sorted !! i) as [s1|] eqn:Hs1; [|discriminate].
    destruct (sorted !! j) as [s2|] eqn:Hs2; [|discriminate].
    injection H1 as H1. injection H2 as H2.
    apply (sorted_lookup_lt ast.arity sorted i j s1 s2);
      [apply (SliceStable_sorted ast.arity)|assumption|assumption|].
    rewrite <- (arity_unlocated s1), <- (arity_unlocated s2), H1, H2.
    now rewrite !arity_unlocated.
  - exists built. split; [reflexivity|]. rewrite Hloc. split.
    + apply Permutation_map. apply (SliceStable_Permutation ast.arity).
    + intros n.
      assert (Hf : forall l,
                List.filter (fun r => (ast.arity r =? n)%nat) (map ast.unlocated l)
                = map ast.unlocated (List.filter (fun r => (ast.arity r =? n)%nat) l)).
      { induction l as [|r l IH]; [reflexivity|]. cbn [map List.filter].
        rewrite arity_unlocated, IH. now destruct (ast.arity r =? n)%nat. }
      rewrite !Hf. f_equal. apply (SliceStable_filter ast.arity).
Qed.

(** [lowered] calls one generator for each field whose list is not empty. *)
Lemma lowered_length
  (fields : list (list ParserCriterion * conditionalGenerator Criterion ParserCriterion))
  st subRules st' :
  lowered fields st subRules st' ->
  length subRules =
  length (List.filter (fun field => negb (length (fst field) =? 0)%nat) fields).
Proof. induction 1; simpl; congruence. Qed.

(** The inner loop of [Generate]: the rule it returns has the head it started
    with, and its body is extended by the constraints of the sub rules, after
    the assignment of [v] from the first one when the body was empty. *)
Lemma fieldsLoop_lowered
  (fields : list (list ParserCriterion * conditionalGenerator Criterion ParserCriterion)) :
  forall rule st rule' st',
    fieldsLoop fields rule st = (Ok rule', st') ->
    exists subRules,
      lowered fields st subRules st' /\
      ast.Head_ rule' = ast.Head_ rule /\
      ast.Body rule' =
        ast.Body rule ++
        match ast.Body rule with
        | [] => headBody subRules
        | _ :: _ => map constraintOf subRules
        end.
Proof.
  induction fields as [|[field_criteria field_generator] fields IH];
    intros rule st rule' st' Hrun.
  - injection Hrun as <- <-. exists []. split; [constructor|]. split; [done|].
    destruct (ast.Body rule); simpl; now rewrite ?app_nil_r.
  - cbn [fieldsLoop] in Hrun. destruct field_criteria as [|criterion field_criteria].
    + cbn in Hrun. destruct (IH _ _ _ _ Hrun) as (subRules & Hl & Hh & Hb).
      exists subRules. split; [now constructor|]. now split.
    + cbn [length Nat.eqb] in Hrun.
      destruct (field_generator (criterion :: field_criteria) st)
        as [[subRule|err] st1] eqn:Hgen; [|discriminate].
      destruct (IH _ _ _ _ Hrun) as (subRules & Hl & Hh & Hb).
      exists (subRule :: subRules). split; [econstructor; eassumption|].
      split; [exact Hh|]. rewrite Hb. cbn [ast.Body].
      destruct (ast.Body rule) as [|e body]; cbn; [reflexivity|].
      rewrite <- !app_assoc. reflexivity.
Qed.

(** C8: the combinators of a policy rule are gone through in the order AND,
    OR, NOT, NOR, and a generator is called for each non-empty one.  The head
    rule keeps the name of the action and the value variable [v]; its body
    assigns [v] from the sub rule of the first non-empty combinator and then
    requires the sub rule of every non-empty combinator to hold, in order.
    With all four lists empty no generator is called and the body is empty.
    The rule is then added to the rule set. *)
Theorem head_rule_body (policyRule : parser.PolicyRule ParserCriterion)
  (st : GenState Criterion) :
  (parser.And policyRule = [] -> parser.Or policyRule = [] ->
   parser.Not policyRule = [] -> parser.Nor policyRule = [] ->
   fieldsLoop (fieldsOf policyRule) (headRule policyRule) st
     = (Ok (headRule policyRule), st) /\
   ast.Body (headRule policyRule) = []) /\
  (forall rule st',
     fieldsLoop (fieldsOf policyRule) (headRule policyRule) st = (Ok rule, st') ->
     exists subRules,
       lowered (fieldsOf policyRule) st subRules st' /\
       length subRules =
         length (List.filter (fun criteria => negb (length criteria =? 0)%nat)
                   [parser.And policyRule; parser.Or policyRule;
                    parser.Not policyRule; parser.Nor policyRule]) /\
       ast.Name (ast.Head_ rule) = parser.Action policyRule /\
       ast.Value (ast.Head_ rule) = Some (ast.VarTerm "v") /\
       ast.Body rule = headBody subRules /\
       forall rest,
         rulesLoop generateAndRule generateOrRule generateNotRule generateNorRule
           Add (policyRule :: rest) st
         = rulesLoop generateAndRule generateOrRule generateNotRule generateNorRule
             Add rest {| gen := gen st'; rules := Add (rules st') rule |}).
Proof.
  split.
  - intros Ha Ho Hn Hr. unfold Generator.fieldsOf. rewrite Ha, Ho, Hn, Hr.
    split; reflexivity.
  - intros rule st' Hrun.
    destruct (fieldsLoop_lowered _ _ _ _ _ Hrun) as (subRules & Hl & Hh & Hb).
    exists subRules. split; [exact Hl|]. split; [|split; [|split; [|split]]].
    + rewrite (lowered_length _ _ _ _ Hl). unfold Generator.fieldsOf. cbn.
      now destruct (parser.And policyRule), (parser.Or policyRule),
        (parser.Not policyRule), (parser.Nor policyRule).
    + now rewrite Hh.
    + now rewrite Hh.
    + exact Hb.
    + intros rest. cbn [rulesLoop]. now rewrite Hrun.
Qed.

End WithPackages.

(** *** The theorems at sample data *)

Lemma NewRule_names_distinct_witness :
  NoDup (map ruleName (fst (NewRules sampleGenerator ["and"; "or"; "and"]))).
Proof.
  apply (proj1 (proj2 NewRule_names_distinct)). vm_compute. discriminate.
Defined.

Lemma Generate_orders_rules_by_arity_witness :
  exists module g',
    sampleGenerate {| parser.Rules := [samplePolicyRule] |} = (Ok module, g') /\
    map ruleName (ast.Rules module)
      = ["default allow = false"; "default deny = false"; "and_0"; "not_0";
         "allow"; "and_0_fn"; "not_0_fn"] /\
    forall i j r1 r2,
      ast.Rules module !! i = Some r1 ->
      ast.Rules module !! j = Some r2 ->
      (ast.arity r1 < ast.arity r2)%nat ->
      (i < j)%nat.
Proof.
  destruct (sampleGenerate {| parser.Rules := [samplePolicyRule] |})
    as [[module|err] g'] eqn:Hrun; [|vm_compute in Hrun; discriminate Hrun].
  exists module, g'. split; [reflexivity|]. split.
  - vm_compute in Hrun. injection Hrun as <- _. reflexivity.
  - exact (proj1 (Generate_orders_rules_by_arity _ _ _ _ _ _ _ _ _ _ _ Hrun)).
Defined.

Lemma head_rule_body_witness :
  exists rule st' subRules,
    fieldsLoop sampleFields (headRule samplePolicyRule)
      {| gen := sampleGenerator; rules := [] |} = (Ok rule, st') /\
    lowered sampleFields {| gen := sampleGenerator; rules := [] |} subRules st' /\
    length subRules = 2%nat /\
    ast.Body rule = headBody subRules /\
    ast.Body rule =
      [ ast.AssignExpr (ast.VarTerm "v") (ast.VarTerm "and_0");
        ast.NewExpr (ast.VarTerm "and_0"); ast.NewExpr (ast.VarTerm "not_0") ].
Proof.
  destruct (fieldsLoop sampleFields (headRule samplePolicyRule)
              {| gen := sampleGenerator; rules := [] |})
    as [[rule|err] st'] eqn:Hrun; [|vm_compute in Hrun; discriminate Hrun].
  destruct (proj2 (head_rule_body _ _ _ _ sampleAdd samplePolicyRule _) rule st' Hrun)
    as (subRules & Hl & Hlen & _ & _ & Hb & _).
  exists rule, st', subRules. split; [reflexivity|]. split; [exact Hl|].
  split; [exact Hlen|]. split; [exact Hb|].
  vm_compute in Hrun. injection Hrun as <- _. reflexivity.
Defined.

End GeneratorProofs.

(** ** Further properties of the policy evaluator *)

Module EvaluatorExtras.
Import Go Evaluator EvaluatorProofs.

(** The entry [getDeny] logs. *)
Definition denyDiagnostic : LogEntry :=
  {| Level := "error"; Msg := "invalid type in deny" |}.

(** [err] is the error [evaluateQuery] makes of the outcome [r] of an
    execution. *)
Definition evaluationError (r : EvalOutcome) (err : error) : Prop :=
  match r with
  | Err cause =>
      err = Errorf "authorize: error evaluating policy.rego: %w" (Some cause)
  | Ok [] =>
      err = Errorf "authorize: unexpected empty result from evaluating policy.rego" None
  | Ok (_ :: _) => False
  end.

(** The output a merge leaves in the heap, when [Merge] returns. *)
Definition mergedValue (output other : loc) (w : World) : option PolicyOutput :=
  match Merge output other w with
  | (Returned merged, w') => heap w' !! merged
  | (Panicked _, _) => None
  end.

(** A world holding the output [Evaluate] starts from and an allowing one. *)
Definition twoOutputs : World :=
  {| heap := {[ 0%nat := {| Allow := false; Deny := None |};
                1%nat := {| Allow := true; Deny := None |} ]};
     logs := []; evals := [] |}.

(** The array under [result.deny], when there is one. *)
Definition denyArray (vars : Vars) : option (list value) :=
  match vars !! "result" with
  | Some (VObject m) =>
      match m !! "deny" with
      | Some (VArray elems) => Some elems
      | _ => None
      end
  | _ => None
  end.

(** [getDeny] by cases on the array under [result.deny]. *)
Lemma getDeny_cases vars w :
  getDeny vars w =
  match denyArray vars with
  | None => (Returned None, w)
  | Some [] => (Panicked "index out of range", w)
  | Some (status :: rest) =>
      match Atoi (Sprint status) with
      | None => (Returned None, addLog denyDiagnostic w)
      | Some n =>
          match rest with
          | [] => (Panicked "index out of range", w)
          | message :: _ =>
              (Returned (Some {| Status := n; Message := Sprint message |}), w)
          end
      end
  end.
Proof.
  unfold getDeny, denyArray.
  destruct (vars !! "result") as [[| | | | |m]|]; try reflexivity.
  destruct (m !! "deny") as [[| | | |elems|]|]; try reflexivity.
  destruct elems as [|status rest]; [reflexivity|].
  cbn [index lookup list_lookup]. cbv beta iota delta [bind ret].
  destruct (Atoi (Sprint status)); [|reflexivity].
  now destruct rest.
Qed.

(** X1: [getDeny] panics exactly when [deny] is an empty array, or a
    one-element array whose element reads as an integer; on every other
    input it returns. *)
Theorem getDeny_panics_iff (vars : Vars) (w : World) :
  (exists msg, fst (getDeny vars w) = Panicked msg) <->
  (denyArray vars = Some [] \/
   exists status n, denyArray vars = Some [status] /\ Atoi (Sprint status) = Some n).
Proof.
  rewrite getDeny_cases. split.
  - intros [msg H]. destruct (denyArray vars) as [[|status rest]|];
      [now left| |discriminate H].
    destruct (Atoi (Sprint status)) as [n|] eqn:Hn; [|discriminate H].
    destruct rest; [|discriminate H]. right. now exists status, n.
  - intros [->|(status & n & -> & ->)]; now eexists.
Qed.

(** X2: [getDeny] returns a denial exactly when [deny] is an array of at
    least two elements whose first reads as an integer: the status is that
    integer, which lies in the range of [int], the message is the second
    element stringified, and any further element is ignored.  Returning a
    denial logs nothing. *)
Theorem getDeny_denial_iff (vars : Vars) (w : World) (d : Denial) :
  (fst (getDeny vars w) = Returned (Some d) <->
   exists status message rest,
     denyArray vars = Some (status :: message :: rest) /\
     Atoi (Sprint status) = Some (Status d) /\
     Message d = Sprint message) /\
  (fst (getDeny vars w) = Returned (Some d) ->
   minInt <= Status d <= maxInt /\ snd (getDeny vars w) = w).
Proof.
  rewrite getDeny_cases. split; [split|].
  - destruct (denyArray vars) as [[|status rest]|]; try discriminate.
    destruct (Atoi (Sprint status)) as [n|] eqn:Hn; [|discriminate].
    destruct rest as [|message rest]; [discriminate|].
    intros [= <-]. now exists status, message, rest.
  - intros (status & message & rest & -> & -> & Hm).
    destruct d as [n msg]. simpl in *. now subst.
  - destruct (denyArray vars) as [[|status rest]|]; try discriminate.
    destruct (Atoi (Sprint status)) as [n|] eqn:Hn; [|discriminate].
    destruct rest as [|message rest]; [discriminate|].
    intros [= <-]. split; [|reflexivity]. cbn [Status].
    unfold Atoi in Hn. destruct (Sprint status) as [|c r]; [discriminate|].
    cbv zeta in Hn.
    destruct (if (c =? "-")%char || (c =? "+")%char then r else String c r);
      [discriminate|].
    destruct (parseDigits 0 _) as [k|]; [|discriminate].
    destruct ((minInt <=? _) && (_ <=? maxInt)) eqn:Hr; [|discriminate].
    injection Hn as <-. apply andb_true_iff in Hr. lia.
Qed.

Lemma getDeny_logs vars w :
  logs (snd (getDeny vars w)) = logs w \/
  logs (snd (getDeny vars w)) = logs w ++ [denyDiagnostic].
Proof.
  rewrite getDeny_cases. destruct (denyArray vars) as [[|status rest]|]; auto.
  destruct (Atoi (Sprint status)); [destruct rest|]; auto.
Qed.

Lemma Merge_logs output other w : logs (snd (Merge output other w)) = logs w.
Proof.
  rewrite Merge_cases.
  destruct (heap w !! output); [destruct (heap w !! other)|]; reflexivity.
Qed.

(** *** Decimal statuses *)

Lemma parseDigits_acc d :
  forall acc : positive,
    parseDigits (Z.pos acc) (NilEmpty.string_of_uint d)
    = Some (Z.pos (Pos.of_uint_acc d acc)).
Proof.
  induction d; intros acc; cbn [NilEmpty.string_of_uint parseDigits Pos.of_uint_acc];
    [reflexivity|..];
    match goal with
    | |- context [digitValue ?c] =>
        let v := eval vm_compute in (digitValue c) in
        change (digitValue c) with v
    end; cbv iota; rewrite <- IHd; f_equal; lia.
Qed.

Lemma parseDigits_zero d :
  parseDigits 0 (NilEmpty.string_of_uint d) = Some (Z.of_N (Pos.of_uint d)).
Proof.
  induction d; cbn [NilEmpty.string_of_uint parseDigits Pos.of_uint];
    [reflexivity|..];
    match goal with
    | |- context [digitValue ?c] =>
        let v := eval vm_compute in (digitValue c) in
        change (digitValue c) with v
    end; cbv iota; [exact IHd|..]; apply parseDigits_acc.
Qed.

(** [Atoi] reads back what [formatInt] prints, for every [int]. *)
Lemma Atoi_formatInt z : minInt <= z <= maxInt -> Atoi (formatInt z) = Some z.
Proof.
  intros Hz.
  assert (Hp : forall p, Atoi (NilEmpty.string_of_uint (Pos.to_uint p))
                         = if (Z.pos p <=? maxInt) then Some (Z.pos p) else None).
  { intros p. pose proof (parseDigits_zero (Pos.to_uint p)) as H.
    rewrite DecimalPos.Unsigned.of_to in H. cbn [Z.of_N] in H.
    pose proof (DecimalPos.Unsigned.to_uint_nonnil p) as Hnn.
    destruct (Pos.to_uint p) as [|d|d|d|d|d|d|d|d|d|d]; [now destruct Hnn|..];
      cbn [NilEmpty.string_of_uint] in *; unfold Atoi;
      cbn [Ascii.eqb Bool.eqb orb andb]; rewrite H;
      replace (minInt <=? Z.pos p) with true
        by (symmetry; apply Z.leb_le; unfold minInt; lia);
      reflexivity. }
  assert (Hn : forall p, Atoi (String "-" (NilEmpty.string_of_uint (Pos.to_uint p)))
                         = if (minInt <=? Z.neg p) then Some (Z.neg p) else None).
  { intros p. pose proof (parseDigits_zero (Pos.to_uint p)) as H.
    rewrite DecimalPos.Unsigned.of_to in H. cbn [Z.of_N] in H.
    pose proof (DecimalPos.Unsigned.to_uint_nonnil p) as Hnn.
    unfold Atoi. cbn [Ascii.eqb Bool.eqb orb andb].
    destruct (NilEmpty.string_of_uint (Pos.to_uint p)) as [|c r] eqn:Hs.
    { destruct (Pos.to_uint p); [now destruct Hnn|discriminate Hs..]. }
    rewrite H. change (- Z.pos p) with (Z.neg p).
    replace (Z.neg p <=? maxInt) with true
      by (symmetry; apply Z.leb_le; unfold maxInt; lia).
    now rewrite andb_true_r. }
  unfold formatInt. destruct z as [|p|p]; cbn [Z.to_int NilZero.string_of_int].
  - reflexivity.
  - pose proof (DecimalPos.Unsigned.to_uint_nonnil p) as Hnn.
    replace (NilZero.string_of_uint (Pos.to_uint p))
      with (NilEmpty.string_of_uint (Pos.to_uint p))
      by (destruct (Pos.to_uint p); [now destruct Hnn|reflexivity..]).
    rewrite Hp. destruct (Z.leb_spec (Z.pos p) maxInt); [reflexivity|lia].
  - pose proof (DecimalPos.Unsigned.to_uint_nonnil p) as Hnn.
    replace (NilZero.string_of_uint (Pos.to_uint p))
      with (NilEmpty.string_of_uint (Pos.to_uint p))
      by (destruct (Pos.to_uint p); [now destruct Hnn|reflexivity..]).
    rewrite Hn. destruct (Z.leb_spec minInt (Z.neg p)); [reflexivity|lia].
Qed.

(** X8: a status written in decimal, as a number or as a string, is read
    back exactly: for every [n] in the range of [int], a [deny] array that
    starts with the decimal form of [n] and a message gives the denial with
    status [n] and the message stringified. *)
Theorem getDeny_decimal_status (vars : Vars) (w : World) (n : Z)
  (status message : value) (rest : list value) :
  denyArray vars = Some (status :: message :: rest) ->
  status = VNumber (formatInt n) \/ status = VString (formatInt n) ->
  minInt <= n <= maxInt ->
  getDeny vars w = (Returned (Some {| Status := n; Message := Sprint message |}), w).
Proof.
  intros Harr Hstatus Hn. rewrite getDeny_cases, Harr.
  assert (Hs : Sprint status = formatInt n) by (now destruct Hstatus as [->| ->]).
  now rewrite Hs, Atoi_formatInt.
Qed.

(** *** Merging *)

Lemma Merge_spec_assoc a b c :
  Merge_spec (Merge_spec a b) c = Merge_spec a (Merge_spec b c).
Proof.
  unfold Merge_spec. cbn [Allow Deny]. rewrite orb_assoc.
  now destruct (Deny c), (Deny b).
Qed.

(** X9: merging is associative: merging the merge of [a] and [b] with [c]
    leaves the same output as merging [a] with the merge of [b] and [c]. *)
Theorem Merge_assoc (w : World) (a b c : loc) (oa ob oc : PolicyOutput) :
  heap w !! a = Some oa -> heap w !! b = Some ob -> heap w !! c = Some oc ->
  exists ab w1 bc w2,
    Merge a b w = (Returned ab, w1) /\
    Merge b c w = (Returned bc, w2) /\
    is_Some (mergedValue ab c w1) /\
    mergedValue ab c w1 = mergedValue a bc w2.
Proof.
  intros Ha Hb Hc.
  eexists _, _, _, _. split; [exact (Merge_run _ _ _ _ _ Ha Hb)|].
  split; [exact (Merge_run _ _ _ _ _ Hb Hc)|].
  set (l := fresh (dom (heap w))).
  assert (H1 : mergedValue l c (setHeap (<[l := Merge_spec oa ob]> (heap w)) w)
               = Some (Merge_spec (Merge_spec oa ob) oc)).
  { unfold mergedValue.
    rewrite (Merge_run l c (Merge_spec oa ob) oc);
      [|rewrite setHeap_heap; apply lookup_insert_eq
       |rewrite setHeap_heap; exact (lookup_fresh_ne _ _ _ _ Hc)].
    rewrite setHeap_heap. apply lookup_insert_eq. }
  assert (H2 : mergedValue a l (setHeap (<[l := Merge_spec ob oc]> (heap w)) w)
               = Some (Merge_spec oa (Merge_spec ob oc))).
  { unfold mergedValue.
    rewrite (Merge_run a l oa (Merge_spec ob oc));
      [|rewrite setHeap_heap; exact (lookup_fresh_ne _ _ _ _ Ha)
       |rewrite setHeap_heap; apply lookup_insert_eq].
    rewrite setHeap_heap. apply lookup_insert_eq. }
  rewrite H1, H2, Merge_spec_assoc. split; [now eexists|reflexivity].
Qed.

(** X10: the output [Evaluate] starts from, [new(PolicyOutput)], is neutral
    for merging on both sides, and merging an output with itself gives an
    equal output. *)
Theorem Merge_neutral (w : World) (zero a : loc) (oa : PolicyOutput) :
  heap w !! zero = Some {| Allow := false; Deny := None |} ->
  heap w !! a = Some oa ->
  mergedValue zero a w = Some oa /\
  mergedValue a zero w = Some oa /\
  mergedValue a a w = Some oa.
Proof.
  intros Hz Ha. unfold mergedValue.
  rewrite (Merge_run _ _ _ _ _ Hz Ha), (Merge_run _ _ _ _ _ Ha Hz),
    (Merge_run _ _ _ _ _ Ha Ha).
  rewrite !setHeap_heap, !lookup_insert_eq. unfold Merge_spec.
  destruct oa as [allow [d|]]; cbn [Allow Deny];
    rewrite ?orb_false_r, ?orb_diag; now do 3 (split || reflexivity).
Qed.

Section WithInput.
Context {RequestHTTP RequestSession : Type}.
#[local] Abbreviation PolicyInput := (PolicyInput RequestHTTP RequestSession).
#[local] Abbreviation PreparedEvalQuery := (PreparedEvalQuery RequestHTTP RequestSession).
#[local] Abbreviation PolicyEvaluator := (PolicyEvaluator RequestHTTP RequestSession).

(** The loop of [Evaluate] returns the fold of the outputs when every query
    yields one. *)
Lemma evaluateLoop_returns (input : PolicyInput) qs :
  forall outs output acc w,
    heap w !! output = Some acc ->
    Forall2 (producedBy input) qs outs ->
    exists p w',
      evaluateLoop input qs output w = (Returned (Ok p), w') /\
      heap w' !! p = Some (fold_left Merge_spec outs acc) /\
      (forall l v, heap w !! l = Some v -> heap w' !! l = Some v).
Proof.
  induction qs as [|query qs IH]; intros outs output acc w Hacc HF.
  - inversion HF; subst. exists output, w. now split.
  - inversion HF as [|q o qs' outs' (rs0 & rest & HE & Ha & HD) HF']; subst.
    destruct (evaluateLoop_step input query qs output acc rs0 rest (Deny o) w HE HD Hacc)
      as (output' & w1 & Heq & Hout & Hframe & _).
    destruct (IH outs' output' _ w1 Hout HF') as (p & w' & Hrun & Hp & Hframe').
    exists p, w'. rewrite Heq. split; [exact Hrun|]. split.
    + cbn [fold_left]. rewrite Hp. do 3 f_equal. destruct o as [a d].
      simpl in Ha. now subst.
    + intros l v Hl. now apply Hframe', Hframe.
Qed.

(** X3: when every query yields a result whose first bindings [getDeny]
    accepts, [Evaluate] returns an output: its allow is the disjunction of the
    queries' allows, its denial the latest present one, and no object that
    existed before the call has changed. *)
Theorem Evaluate_returns (e : PolicyEvaluator) (input : PolicyInput) (w : World)
  (outs : list PolicyOutput) :
  Forall2 (producedBy input) (queries e) outs ->
  exists p w',
    Evaluate e input w = (Returned (Ok p), w') /\
    heap w' !! p = Some {| Allow := existsb Allow outs; Deny := lastDenial outs |} /\
    (forall l v, heap w !! l = Some v -> heap w' !! l = Some v).
Proof.
  intros HF. unfold Evaluate. rewrite (bind_returned _ _ _ _ _ (alloc_run _ _)).
  edestruct (evaluateLoop_returns input (queries e) outs) as (p & w' & Hrun & Hp & Hfr);
    [|exact HF|].
  { rewrite setHeap_heap. apply lookup_insert_eq. }
  exists p, w'. split; [exact Hrun|]. split.
  - rewrite Hp, fold_Merge_spec. simpl. now destruct (lastDenial outs).
  - intros l v Hl. apply Hfr. rewrite setHeap_heap. now apply lookup_fresh_ne.
Qed.

(** X4: [evaluateQuery] reads the first result only: two executions that
    agree on their first result give the same return value, the same heap and
    the same log, whatever results follow. *)
Theorem evaluateQuery_first_result_only (input : PolicyInput)
  (query1 query2 : PreparedEvalQuery) (rs0 : Result) (rest1 rest2 : list Result)
  (w : World) :
  Eval query1 input = Ok (rs0 :: rest1) ->
  Eval query2 input = Ok (rs0 :: rest2) ->
  fst (evaluateQuery input query1 w) = fst (evaluateQuery input query2 w) /\
  heap (snd (evaluateQuery input query1 w)) = heap (snd (evaluateQuery input query2 w)) /\
  logs (snd (evaluateQuery input query1 w)) = logs (snd (evaluateQuery input query2 w)).
Proof.
  intros H1 H2. rewrite !evaluateQuery_run, H1, H2. cbv zeta.
  rewrite !getDeny_cases. destruct (denialOf (Bindings rs0)) as [deny|msg].
  - split; [reflexivity|]. split; [reflexivity|].
    destruct (denyArray (Bindings rs0)) as [[|status rest]|]; try reflexivity.
    destruct (Atoi (Sprint status)); [destruct rest|]; reflexivity.
  - split; [reflexivity|].
    destruct (denyArray (Bindings rs0)) as [[|status rest]|]; try now split.
    destruct (Atoi (Sprint status)); [destruct rest|]; now split.
Qed.

(** The loop of [Evaluate] logs diagnostics of [getDeny] only, at most one for
    each query. *)
Lemma evaluateLoop_logs (input : PolicyInput) qs :
  forall output w,
  exists added,
    logs (snd (evaluateLoop input qs output w)) = logs w ++ added /\
    Forall (fun entry => entry = denyDiagnostic) added /\
    (length added <= length qs)%nat.
Proof.
  induction qs as [|query qs IH]; intros output w.
  - exists []. split; [now rewrite app_nil_r|]. split; [constructor|done].
  - assert (Hnone : forall w1 : World, logs w1 = logs w ->
              exists added, logs w1 = logs w ++ added /\
                Forall (fun entry => entry = denyDiagnostic) added /\
                (length added <= length (query :: qs))%nat).
    { intros w1 H. exists []. rewrite app_nil_r. split; [exact H|].
      split; [constructor|simpl; lia]. }
    rewrite evaluateLoop_cons, evaluateQuery_run. cbv zeta.
    destruct (Eval query input) as [[|rs0 rest]|err]; try (now apply Hnone).
    set (w1 := addEval (Ok (rs0 :: rest)) w).
    set (w2 := snd (getDeny (Bindings rs0) w1)).
    assert (H2 : exists first,
              logs w2 = logs w ++ first /\
              Forall (fun entry => entry = denyDiagnostic) first /\
              (length first <= 1)%nat).
    { destruct (getDeny_logs (Bindings rs0) w1) as [Hl|Hl]; fold w2 in Hl.
      - exists []. rewrite app_nil_r. split; [exact Hl|]. split; [constructor|simpl; lia].
      - exists [denyDiagnostic]. split; [exact Hl|]. split; [now constructor|simpl; lia]. }
    destruct H2 as (first & Hf & Hfall & Hflen).
    assert (Hone : forall w3 : World, logs w3 = logs w2 ->
              exists added, logs w3 = logs w ++ added /\
                Forall (fun entry => entry = denyDiagnostic) added /\
                (length added <= length (query :: qs))%nat).
    { intros w3 H. exists first. rewrite H. split; [exact Hf|].
      split; [exact Hfall|simpl; lia]. }
    destruct (denialOf (Bindings rs0)) as [deny|msg]; [|now apply Hone].
    set (w3 := setHeap _ w2).
    pose proof (Merge_logs output (fresh (dom (heap w))) w3) as HM.
    destruct (Merge output (fresh (dom (heap w))) w3) as [[output'|msg] w4];
      simpl in HM; [|now apply Hone].
    destruct (IH output' w4) as (added & Hl & Hall & Hlen). rewrite Hl, HM.
    exists (first ++ added). unfold w3. simpl. rewrite Hf, <- app_assoc.
    split; [reflexivity|]. split; [now apply Forall_app|].
    rewrite length_app. simpl. lia.
Qed.

(** X5: the only thing [Evaluate] writes to the log is the diagnostic of
    [getDeny], at most once for each query. *)
Theorem Evaluate_logs (e : PolicyEvaluator) (input : PolicyInput) (w : World) :
  exists added,
    logs (snd (Evaluate e input w)) = logs w ++ added /\
    Forall (fun entry => entry = denyDiagnostic) added /\
    (length added <= length (queries e))%nat.
Proof.
  unfold Evaluate. rewrite (bind_returned _ _ _ _ _ (alloc_run _ _)).
  edestruct (evaluateLoop_logs input (queries e)) as (added & Hl & Hall & Hlen).
  exists added. split; [exact Hl|]. now split.
Qed.

(** The executions of the loop of [Evaluate] are those of an initial segment
    of the queries, in order; of all of them when the loop returns an
    output. *)
Lemma evaluateLoop_executions (input : PolicyInput) qs :
  forall output w,
  exists n,
    (n <= length qs)%nat /\
    evals (snd (evaluateLoop input qs output w))
      = evals w ++ map (fun q => Eval q input) (take n qs) /\
    (forall p, fst (evaluateLoop input qs output w) = Returned (Ok p) ->
               n = length qs).
Proof.
  induction qs as [|query qs IH]; intros output w.
  - exists 0%nat. split; [done|]. split; [now rewrite app_nil_r|done].
  - assert (Hone : forall (r : outcome (res loc)) (w1 : World),
              evals w1 = evals w ++ [Eval query input] ->
              (forall p, r <> Returned (Ok p)) ->
              exists n, (n <= length (query :: qs))%nat /\
                evals w1 = evals w ++ map (fun q => Eval q input) (take n (query :: qs)) /\
                (forall p, r = Returned (Ok p) -> n = length (query :: qs))).
    { intros r w1 H Hr. exists 1%nat. split; [simpl; lia|].
      split; [destruct qs; exact H|]. intros p Hp. now destruct (Hr p). }
    rewrite evaluateLoop_cons, evaluateQuery_run. cbv zeta.
    destruct (Eval query input) as [[|rs0 rest]|err] eqn:HE.
    1, 3: cbn [fst snd]; apply Hone; [reflexivity|discriminate].
    set (w2 := snd (getDeny (Bindings rs0) (addEval (Ok (rs0 :: rest)) w))).
    assert (Hw2 : evals w2 = evals w ++ [Ok (rs0 :: rest)])
      by (unfold w2; now rewrite getDeny_evals).
    destruct (denialOf (Bindings rs0)) as [deny|msg];
      [|cbn [fst snd]; apply Hone; [exact Hw2|discriminate]].
    set (w3 := setHeap _ w2).
    pose proof (Merge_evals output (fresh (dom (heap w))) w3) as HM.
    destruct (Merge output (fresh (dom (heap w))) w3) as [[output'|msg] w4];
      simpl in HM.
    + destruct (IH output' w4) as (n & Hn & He & Hall).
      exists (S n). split; [simpl; lia|]. split.
      * rewrite He, HM. unfold w3. simpl. rewrite Hw2, <- app_assoc.
        now rewrite HE.
      * intros p Hp. simpl. f_equal. now apply (Hall p).
    + cbn [fst snd]. apply Hone; [|discriminate]. now rewrite HM.
Qed.

(** X6: [Evaluate] executes the queries in their order, each at most once,
    and stops at some point of the list; when it returns an output, every
    query was executed exactly once. *)
Theorem Evaluate_runs_in_order (e : PolicyEvaluator) (input : PolicyInput) (w : World) :
  exists n,
    (n <= length (queries e))%nat /\
    evals (snd (Evaluate e input w))
      = evals w ++ map (fun q => Eval q input) (take n (queries e)) /\
    (forall p, fst (Evaluate e input w) = Returned (Ok p) ->
               n = length (queries e)).
Proof.
  unfold Evaluate. rewrite (bind_returned _ _ _ _ _ (alloc_run _ _)).
  edestruct (evaluateLoop_executions input (queries e)) as (n & Hn & He & Hall).
  exists n. split; [exact Hn|]. split; [exact He|exact Hall].
Qed.

Lemma evaluateLoop_error_source (input : PolicyInput) qs :
  forall output w err,
    fst (evaluateLoop input qs output w) = Returned (Err err) ->
    exists pre query post,
      qs = pre ++ query :: post /\
      Forall (fun q => ~ failedEval (Eval q input)) pre /\
      evaluationError (Eval query input) err.
Proof.
  induction qs as [|query qs IH]; intros output w err; [discriminate|].
  rewrite evaluateLoop_cons, evaluateQuery_run. cbv zeta.
  destruct (Eval query input) as [[|rs0 rest]|cause] eqn:HE.
  - intros [= <-]. exists [], query, qs. split; [reflexivity|].
    split; [constructor|]. now rewrite HE.
  - destruct (denialOf (Bindings rs0)) as [deny|msg]; [|discriminate].
    destruct (Merge _ _ _) as [[output'|msg] w4]; [|discriminate].
    intros Herr. destruct (IH _ _ _ Herr) as (pre & q & post & -> & Hpre & Hq).
    exists (query :: pre), q, post. split; [reflexivity|]. split; [|exact Hq].
    constructor; [|exact Hpre]. rewrite HE. simpl. tauto.
  - intros [= <-]. exists [], query, qs. split; [reflexivity|].
    split; [constructor|]. now rewrite HE.
Qed.

(** X7: an error returned by [Evaluate] is made by [evaluateQuery] of the
    first query whose execution fails: it wraps the engine's error, or
    reports the empty result. *)
Theorem Evaluate_error_source (e : PolicyEvaluator) (input : PolicyInput) (w : World)
  (err : error) :
  fst (Evaluate e input w) = Returned (Err err) ->
  exists pre query post,
    queries e = pre ++ query :: post /\
    Forall (fun q => ~ failedEval (Eval q input)) pre /\
    evaluationError (Eval query input) err.
Proof.
  unfold Evaluate. rewrite (bind_returned _ _ _ _ _ (alloc_run _ _)).
  apply evaluateLoop_error_source.
Qed.

End WithInput.

(** *** The theorems at sample data *)

Lemma Evaluate_returns_witness :
  exists p w',
    Evaluate {| queries := sampleQueries |} sampleInput emptyWorld
      = (Returned (Ok p), w') /\
    heap w' !! p =
      Some {| Allow := true; Deny := Some {| Status := 403; Message := "blocked" |} |}.
Proof.
  destruct (Evaluate_returns {| queries := sampleQueries |} sampleInput emptyWorld
              [ {| Allow := false; Deny := None |};
                {| Allow := true; Deny := Some {| Status := 403; Message := "blocked" |} |};
                {| Allow := false; Deny := None |} ])
    as (p & w' & Hrun & Hp & _).
  - repeat constructor; eexists _, _; (split; [reflexivity|]); split; reflexivity.
  - exists p, w'. split; [exact Hrun|exact Hp].
Defined.

Lemma evaluateQuery_first_result_only_witness :
  fst (evaluateQuery sampleInput
         (constQuery (Ok [resultOf malformedFields; resultOf ∅])) emptyWorld)
  = fst (evaluateQuery sampleInput
           (constQuery (Ok [resultOf malformedFields])) emptyWorld).
Proof.
  apply (evaluateQuery_first_result_only sampleInput
           (constQuery (Ok [resultOf malformedFields; resultOf ∅]))
           (constQuery (Ok [resultOf malformedFields]))
           (resultOf malformedFields) [resultOf ∅] [] emptyWorld eq_refl eq_refl).
Defined.

Lemma Evaluate_error_source_witness :
  exists pre query post,
    [ constQuery (Ok [resultOf ∅]); constQuery (Err (ExternalError "eval_cancel_error")) ]
      = pre ++ query :: post /\
    Forall (fun q => ~ failedEval (Eval q sampleInput)) pre /\
    evaluationError (Eval query sampleInput)
      (Errorf "authorize: error evaluating policy.rego: %w"
         (Some (ExternalError "eval_cancel_error"))).
Proof.
  apply (Evaluate_error_source
           {| queries := [ constQuery (Ok [resultOf ∅]);
                           constQuery (Err (ExternalError "eval_cancel_error")) ] |}
           sampleInput emptyWorld).
  vm_compute. reflexivity.
Defined.

Lemma getDeny_decimal_status_witness :
  getDeny (Bindings (resultOf {[ "deny" := VArray [VNumber "403"; VString "blocked"] ]}))
    emptyWorld
  = (Returned (Some {| Status := 403; Message := "blocked" |}), emptyWorld).
Proof.
  apply (getDeny_decimal_status _ emptyWorld 403 (VNumber "403") (VString "blocked") []).
  - reflexivity.
  - left. reflexivity.
  - unfold minInt, maxInt. lia.
Defined.

Lemma Merge_assoc_witness :
  exists ab w1 bc w2,
    Merge 0%nat 1%nat twoOutputs = (Returned ab, w1) /\
    Merge 1%nat 0%nat twoOutputs = (Returned bc, w2) /\
    is_Some (mergedValue ab 0%nat w1) /\
    mergedValue ab 0%nat w1 = mergedValue 0%nat bc w2.
Proof.
  apply (Merge_assoc twoOutputs 0%nat 1%nat 0%nat
           {| Allow := false; Deny := None |} {| Allow := true; Deny := None |}
           {| Allow := false; Deny := None |}); reflexivity.
Defined.

Lemma Merge_neutral_witness :
  mergedValue 0%nat 1%nat twoOutputs
  = Some {| Allow := true; Deny := None |}.
Proof.
  apply (proj1 (Merge_neutral twoOutputs 0%nat 1%nat {| Allow := true; Deny := None |}
                  eq_refl eq_refl)).
Defined.

End EvaluatorExtras.

(** ** Further properties of the generator *)

Module GeneratorExtras.
Import Go Generator GeneratorProofs.

(** The number of times [base] occurs in [bases]. *)
Definition occurrences (base : string) (bases : list string) : nat :=
  length (List.filter (String.eqb base) bases).

(** Two criteria, given by the names they answer to, and constructors that
    leave the generator as it is. *)
Definition sampleConstructors : list (CriterionConstructor (list string)) :=
  [ (fun g => (["domain"; "domains"], g)); (fun g => (["user"], g)) ].

(** A policy rule with no criteria at all. *)
Definition emptyPolicyRule : parser.PolicyRule string :=
  {| parser.Action := "allow"; parser.And := []; parser.Or := [];
     parser.Not := []; parser.Nor := [] |}.

(** The rule set built for the sample policy rule, before it is sorted. *)
Definition sampleBuilt : ast.RuleSet :=
  Eval vm_compute in
    match buildRules (sampleLowering "and") (sampleLowering "or")
            (sampleLowering "not") (sampleLowering "nor") sampleParse sampleAdd
            {| parser.Rules := [samplePolicyRule] |} sampleGenerator with
    | (Ok built, _) => built
    | (Err _, _) => []
    end.

(** Every criterion of the registry answers to the name it is stored
    under. *)
Definition registrySound {Criterion} (Names : Criterion -> list string)
  (g : Generator Criterion) : Prop :=
  forall name c, GetCriterion g name = Some c -> In name (Names c).

Section WithCriterion.
Context {Criterion : Type} (Names : Criterion -> list string).
#[local] Abbreviation Generator := (Generator Criterion).

Lemma register_fold (c : Criterion) (names : list string) :
  forall g : Generator,
    let g' := fold_left
                (fun g name => {| ids := ids g; criteria := <[name := c]> (criteria g) |})
                names g in
    ids g' = ids g /\
    forall name,
      criteria g' !! name = if decide (name ∈ names) then Some c else criteria g !! name.
Proof.
  induction names as [|n names IH]; intros g; cbn [fold_left].
  - split; [reflexivity|]. intros name.
    destruct (decide (name ∈ [])) as [H|]; [|reflexivity]. now apply elem_of_nil in H.
  - destruct (IH {| ids := ids g; criteria := <[n := c]> (criteria g) |}) as [Hi Hc].
    cbv zeta in *. split; [exact Hi|]. intros name. rewrite Hc. cbn [criteria].
    destruct (decide (name ∈ names)) as [Hin|Hnin].
    + destruct (decide (name ∈ n :: names)) as [|Hn]; [reflexivity|].
      destruct Hn. apply elem_of_cons. now right.
    + rewrite lookup_insert. destruct (decide (n = name)) as [->|Hne].
      * destruct (decide (name ∈ name :: names)) as [|Hn]; [reflexivity|].
        destruct Hn. apply elem_of_cons. now left.
      * destruct (decide (name ∈ n :: names)) as [Hn|]; [|reflexivity].
        apply elem_of_cons in Hn. destruct Hn as [->|Hn]; [now destruct Hne|].
        now destruct Hnin.
Qed.

(** X11: [WithCriterion] runs the constructor and registers the criterion it
    returns under each of its names, replacing what was registered there; on
    every other name, and on the name counters, the generator is as the
    constructor left it. *)
Theorem WithCriterion_registers (criterionConstructor : CriterionConstructor Criterion)
  (g : Generator) :
  let c := fst (criterionConstructor g) in
  let g1 := snd (criterionConstructor g) in
  let g' := WithCriterion Criterion Names criterionConstructor g in
  (forall name, In name (Names c) -> GetCriterion g' name = Some c) /\
  (forall name, ~ In name (Names c) -> GetCriterion g' name = GetCriterion g1 name) /\
  ids g' = ids g1.
Proof.
  cbv zeta. unfold WithCriterion, GetCriterion.
  destruct (criterionConstructor g) as [c g1]. cbn [fst snd].
  destruct (register_fold c (Names c) g1) as [Hi Hc]. cbv zeta in *.
  split; [|split; [|exact Hi]]; intros name Hn; rewrite Hc;
    rewrite <- list_elem_of_In in Hn;
    now destruct (decide (name ∈ Names c)).
Qed.

Lemma New_snoc (options : list (Option Criterion)) (o : Option Criterion) :
  New (options ++ [o]) = o (New options).
Proof. unfold New. now rewrite fold_left_app. Qed.

(** X12: when the constructors leave the generator as they find it, the
    generator made by [New] from [WithCriterion] options has all its name
    counters at zero, [GetCriterion] returns for a name only a criterion that
    answers to this name, and a name no constructor's criterion answers to is
    not found. *)
Theorem New_registry_sound (constructors : list (CriterionConstructor Criterion)) :
  (forall ctor g0, In ctor constructors -> snd (ctor g0) = g0) ->
  let g := New (map (WithCriterion Criterion Names) constructors) in
  registrySound Names g /\
  (forall base, idOf g base = 0) /\
  (forall name,
     (forall ctor g0, In ctor constructors -> ~ In name (Names (fst (ctor g0)))) ->
     GetCriterion g name = None).
Proof.
  cbv zeta. induction constructors as [|ctor ctors IH] using rev_ind; intros Hpure.
  - split; [intros name c H; discriminate H|]. split; reflexivity.
  - rewrite map_app. cbn [map]. rewrite New_snoc.
    destruct IH as (Hs & Hz & Hn).
    { intros c g0 Hc. apply Hpure, in_or_app. now left. }
    set (g := New (map (WithCriterion Criterion Names) ctors)) in *.
    destruct (WithCriterion_registers ctor g) as (Hin & Hout & Hids).
    cbv zeta in *.
    rewrite (Hpure ctor g) in Hout, Hids by (apply in_or_app; right; now left).
    split; [|split].
    + intros name c Hc.
      destruct (in_dec string_dec name (Names (fst (ctor g)))) as [Hi|Hni].
      * rewrite (Hin _ Hi) in Hc. now injection Hc as <-.
      * rewrite (Hout _ Hni) in Hc. now apply Hs.
    + intros base. unfold idOf in *. rewrite Hids. apply Hz.
    + intros name Hnone. rewrite Hout.
      * apply Hn. intros c g0 Hc. apply Hnone, in_or_app. now left.
      * apply Hnone, in_or_app. right. now left.
Qed.

(** X13: the names of one base are numbered consecutively: in a sequence of
    calls that does not exhaust the range of [int], the call at position [i]
    returns the base followed by the counter the generator started with plus
    the number of earlier calls for the same base. *)
Theorem NewRules_numbering (bases : list string) :
  forall (g : Generator) (i : nat) (base : string),
    bases !! i = Some base ->
    minInt <= idOf g base ->
    idOf g base + Z.of_nat (length bases) <= maxInt ->
    map ruleName (fst (NewRules g bases)) !! i
    = Some (base +:+ "_" +:+
            formatInt (idOf g base + Z.of_nat (occurrences base (take i bases)))).
Proof.
  induction bases as [|b rest IH]; intros g i base Hi Hlo Hhi; [discriminate Hi|].
  rewrite NewRules_cons. cbn [fst map length] in *. destruct i as [|i].
  - injection Hi as ->.
    change (Some (ruleName (fst (NewRule g base)))
            = Some (base +:+ "_" +:+ formatInt (idOf g base + 0))).
    now rewrite NewRule_name, Z.add_0_r.
  - cbn [lookup list_lookup] in *. change (map ruleName ?l !! i) with (map ruleName l !! i).
    rewrite (IH _ i base Hi); rewrite NewRule_idOf.
    + do 3 f_equal. unfold occurrences. cbn [take List.filter].
      destruct (decide (b = base)) as [->|Hne].
      * rewrite String.eqb_refl. cbn [length].
        rewrite wrap64_in_range by (unfold minInt, maxInt in *; lia).
        f_equal. lia.
      * destruct (String.eqb_spec base b) as [->|_]; [done|reflexivity].
    + destruct (decide (b = base)) as [->|]; [|exact Hlo].
      rewrite wrap64_in_range; unfold minInt, maxInt in *; lia.
    + destruct (decide (b = base)) as [->|]; [|lia].
      rewrite wrap64_in_range; unfold minInt, maxInt in *; lia.
Qed.

End WithCriterion.

(** *** Errors, order and positions in [Generate] *)

Lemma SliceStable_sorted_id {A} (key : A -> nat) (l : list A) :
  StronglySorted (fun x y => (key x <= key y)%nat) l ->
  sort.SliceStable (fun x y => (key x <? key y)%nat) l = l.
Proof.
  induction 1 as [|x l Hl IH Hx]; [reflexivity|].
  cbn [sort.SliceStable foldr]. fold (sort.SliceStable (fun x y => (key x <? key y)%nat) l).
  rewrite IH. destruct Hx as [|y l Hy _]; [reflexivity|].
  cbn [sort.insertStable]. now rewrite (proj2 (Nat.ltb_ge _ _) Hy).
Qed.

Section WithPackages.
Context {Criterion ParserCriterion : Type}.
Variables generateAndRule generateOrRule generateNotRule generateNorRule
  : conditionalGenerator Criterion ParserCriterion.
Variable MustParseRule : string -> ast.Rule.
Variable Add : ast.RuleSet -> ast.Rule -> ast.RuleSet.
Variable RuleString : ast.Rule -> string.

#[local] Abbreviation Generate :=
  (Generate generateAndRule generateOrRule generateNotRule generateNorRule
     MustParseRule Add RuleString).
#[local] Abbreviation buildRules :=
  (buildRules generateAndRule generateOrRule generateNotRule generateNorRule
     MustParseRule Add).
#[local] Abbreviation rulesLoop :=
  (rulesLoop generateAndRule generateOrRule generateNotRule generateNorRule Add).
#[local] Abbreviation fieldsOf :=
  (fieldsOf generateAndRule generateOrRule generateNotRule generateNorRule).

Lemma fieldsLoop_error
  (fields : list (list ParserCriterion * conditionalGenerator Criterion ParserCriterion)) :
  forall rule st err st',
    fieldsLoop fields rule st = (Err err, st') ->
    exists field_criteria generator st0,
      In (field_criteria, generator) fields /\
      field_criteria <> [] /\
      generator field_criteria st0 = (Err err, st').
Proof.
  induction fields as [|[field_criteria field_generator] fields IH];
    intros rule st err st' Hrun; [discriminate Hrun|].
  cbn [fieldsLoop] in Hrun. destruct field_criteria as [|criterion field_criteria].
  - cbn in Hrun. destruct (IH _ _ _ _ Hrun) as (cs & gen0 & st0 & Hin & Hne & Hgen).
    exists cs, gen0, st0. split; [now right|]. now split.
  - cbn [length Nat.eqb] in Hrun.
    destruct (field_generator (criterion :: field_criteria) st)
      as [[subRule|err0] st1] eqn:Hgen.
    + destruct (IH _ _ _ _ Hrun) as (cs & gen0 & st0 & Hin & Hne & Hgen0).
      exists cs, gen0, st0. split; [now right|]. now split.
    + injection Hrun as <- <-.
      exists (criterion :: field_criteria), field_generator, st.
      split; [now left|]. now split.
Qed.

Lemma fieldsLoop_succeeds
  (fields : list (list ParserCriterion * conditionalGenerator Criterion ParserCriterion)) :
  (forall field_criteria generator st,
     In (field_criteria, generator) fields ->
     exists subRule st', generator field_criteria st = (Ok subRule, st')) ->
  forall rule st, exists rule' st', fieldsLoop fields rule st = (Ok rule', st').
Proof.
  induction fields as [|[field_criteria field_generator] fields IH];
    intros Hok rule st; [now eexists _, _|].
  cbn [fieldsLoop]. destruct (length field_criteria =? 0)%nat.
  - apply IH. intros cs gen0 st0 Hin. apply Hok. now right.
  - destruct (Hok field_criteria field_generator st (or_introl eq_refl))
      as (subRule & st1 & ->).
    apply IH. intros cs gen0 st0 Hin. apply Hok. now right.
Qed.

(** X14: [Generate] has no failure of its own.  An error it returns is the
    error a lowering returned for a non-empty criteria list of one of the
    policy's rules, unchanged, and the generator is left as that lowering
    left it; when the four lowerings never fail, [Generate] returns a
    module. *)
Theorem Generate_error_source (g : Generator Criterion)
  (policy : parser.Policy ParserCriterion) :
  (forall err g',
     Generate g policy = (Err err, g') ->
     exists policyRule field_criteria generator st0 st',
       In policyRule (parser.Rules policy) /\
       In (field_criteria, generator) (fieldsOf policyRule) /\
       field_criteria <> [] /\
       generator field_criteria st0 = (Err err, st') /\
       g' = gen st') /\
  ((forall generator field_criteria st,
      In generator [generateAndRule; generateOrRule; generateNotRule; generateNorRule] ->
      exists subRule st', generator field_criteria st = (Ok subRule, st')) ->
   exists module g', Generate g policy = (Ok module, g')).
Proof.
  split.
  - intros err g'. unfold Generator.Generate, Generator.buildRules.
    generalize ({| gen := g;
                   rules := Add (Add [] (MustParseRule "default allow = false"))
                              (MustParseRule "default deny = false") |}).
    induction (parser.Rules policy) as [|policyRule rest IH]; intros st Hrun;
      [discriminate Hrun|].
    cbn [Generator.rulesLoop] in Hrun.
    destruct (fieldsLoop (fieldsOf policyRule) (headRule policyRule) st)
      as [[rule|err0] st1] eqn:Hf.
    + destruct (IH _ Hrun) as (pr & cs & gen0 & st0 & st' & Hin & H).
      exists pr, cs, gen0, st0, st'. split; [now right|exact H].
    + injection Hrun as <- <-.
      destruct (fieldsLoop_error _ _ _ _ _ Hf) as (cs & gen0 & st0 & Hin & Hne & Hgen).
      exists policyRule, cs, gen0, st0, st1. split; [now left|]. now repeat split.
  - intros Hok. unfold Generator.Generate, Generator.buildRules.
    generalize ({| gen := g;
                   rules := Add (Add [] (MustParseRule "default allow = false"))
                              (MustParseRule "default deny = false") |}).
    induction (parser.Rules policy) as [|policyRule rest IH]; intros st;
      [now eexists _, _|].
    cbn [Generator.rulesLoop].
    destruct (fieldsLoop_succeeds (fieldsOf policyRule)) with
      (rule := headRule policyRule) (st := st) as (rule & st1 & ->).
    + intros cs gen0 st0 Hin. apply Hok. unfold Generator.fieldsOf in Hin.
      cbn in Hin. cbn.
      destruct Hin as [[= _ <-]|[[= _ <-]|[[= _ <-]|[[= _ <-]|[]]]]]; tauto.
    + apply IH.
Qed.

(** X15: when the rule set as built is already in order of arity, as it is
    when no rule takes arguments, [Generate] returns the rules in the order
    they were added (locations aside). *)
Theorem Generate_keeps_sorted_order (g g' : Generator Criterion)
  (policy : parser.Policy ParserCriterion) (module : ast.Module_)
  (built : ast.RuleSet) :
  Generate g policy = (Ok module, g') ->
  buildRules policy g = (Ok built, g') ->
  StronglySorted (fun r1 r2 => (ast.arity r1 <= ast.arity r2)%nat) built \/
  Forall (fun r => ast.arity r = 0%nat) built ->
  map ast.unlocated (ast.Rules module) = map ast.unlocated built.
Proof.
  unfold Generator.Generate. intros Hrun Hb Hsorted. rewrite Hb in Hrun.
  injection Hrun as <-. cbn [ast.Rules]. rewrite unlocated_locateRules. f_equal.
  apply (SliceStable_sorted_id ast.arity). destruct Hsorted as [H|H]; [exact H|].
  clear Hb. induction H as [|r l Hr Hl IH]; [constructor|].
  constructor; [exact IH|].
  eapply List.Forall_impl; [|exact Hl]. simpl. intros r' Hr'. lia.
Qed.

Lemma locateRule_no_else r i :
  ast.Else r = None ->
  locateRule RuleString r i
  = (ast.SetLoc r (ast.NewLocation (RuleString r) "" i 1), wrap64 (i + 1)).
Proof. destruct r as [l d h b e]. cbn. now intros ->. Qed.

Lemma locateRules_rows rs :
  forall i k,
    Forall (fun r => ast.Else r = None) rs ->
    minInt <= i -> i + Z.of_nat (length rs) <= maxInt ->
    locateRules RuleString rs i !! k
    = (fun r => ast.SetLoc r (ast.NewLocation (RuleString r) "" (i + Z.of_nat k) 1))
        <$> rs !! k.
Proof.
  induction rs as [|r rs IH]; intros i k Hall Hlo Hhi; [reflexivity|].
  inversion Hall as [|r' rs' Hr Hrs]; subst.
  cbn [locateRules]. rewrite (locateRule_no_else r i Hr). cbn [length] in Hhi.
  destruct k as [|k].
  - cbn. now rewrite Z.add_0_r.
  - cbn [lookup list_lookup].
    change (locateRules RuleString rs (wrap64 (i + 1)) !! k
            = (fun r0 => ast.SetLoc r0
                           (ast.NewLocation (RuleString r0) "" (i + Z.of_nat (S k)) 1))
                <$> rs !! k).
    rewrite wrap64_in_range by (unfold minInt, maxInt in *; lia).
    rewrite IH; [|exact Hrs|unfold minInt in *; lia|lia].
    replace (i + 1 + Z.of_nat k) with (i + Z.of_nat (S k)) by lia. reflexivity.
Qed.

(** X16: when no rule has an else chain and the rules are fewer than the
    largest [int], the rule at index [k] of the returned module is the rule
    at index [k] of the sorted rule set, located at row [k + 1], column 1, of
    an unnamed file, with the rule's own rendering as text. *)
Theorem Generate_locations (g g' : Generator Criterion)
  (policy : parser.Policy ParserCriterion) (module : ast.Module_)
  (built : ast.RuleSet) (k : nat) :
  Generate g policy = (Ok module, g') ->
  buildRules policy g = (Ok built, g') ->
  Forall (fun r => ast.Else r = None) built ->
  Z.of_nat (length built) < maxInt ->
  ast.Rules module !! k
  = (fun r => ast.SetLoc r (ast.NewLocation (RuleString r) "" (Z.of_nat k + 1) 1))
      <$> sort.SliceStable fewerArgs built !! k.
Proof.
  unfold Generator.Generate. intros Hrun Hb Hall Hlen. rewrite Hb in Hrun.
  injection Hrun as <-. cbn [ast.Rules].
  pose proof (SliceStable_Permutation ast.arity built) as Hperm.
  rewrite locateRules_rows.
  - destruct (sort.SliceStable fewerArgs built !! k); [|reflexivity].
    cbn. now rewrite Z.add_comm.
  - eapply Permutation_Forall; [symmetry; exact Hperm|exact Hall].
  - unfold minInt. lia.
  - change (sort.SliceStable fewerArgs built)
      with (sort.SliceStable (fun x y => (ast.arity x <? ast.arity y)%nat) built).
    rewrite (Permutation_length Hperm). lia.
Qed.

End WithPackages.

(** *** The theorems at sample data *)

Lemma New_registry_sound_witness :
  GetCriterion (New (map (WithCriterion (list string) (fun c => c)) sampleConstructors))
    "email" = None.
Proof.
  assert (Hpure : forall (ctor : CriterionConstructor (list string)) g0,
            In ctor sampleConstructors -> snd (ctor g0) = g0)
    by (intros ctor g0 [<-|[<-|[]]]; reflexivity).
  apply (proj2 (proj2 (New_registry_sound (fun c => c) sampleConstructors Hpure))).
  intros ctor g0 [<-|[<-|[]]]; cbn; intuition discriminate.
Defined.

Lemma NewRules_numbering_witness :
  map ruleName (fst (NewRules sampleGenerator ["and"; "or"; "and"])) !! 2%nat
  = Some ("and" +:+ "_" +:+
          formatInt (idOf sampleGenerator "and"
                     + Z.of_nat (occurrences "and" (take 2 ["and"; "or"; "and"])))).
Proof.
  apply (NewRules_numbering ["and"; "or"; "and"] sampleGenerator 2 "and").
  - reflexivity.
  - vm_compute. discriminate.
  - vm_compute. discriminate.
Defined.

Lemma Generate_error_source_witness :
  exists policyRule field_criteria generator st0 st',
    In policyRule [samplePolicyRule] /\
    In (field_criteria, generator)
      (fieldsOf (sampleLowering "and") (sampleLowering "or") failingLowering
         (sampleLowering "nor") policyRule) /\
    field_criteria <> [] /\
    generator field_criteria st0 = (Err (ExternalError "unknown criterion"), st') /\
    snd (Generate (sampleLowering "and") (sampleLowering "or") failingLowering
           (sampleLowering "nor") sampleParse sampleAdd ruleName sampleGenerator
           {| parser.Rules := [samplePolicyRule] |})
    = gen st'.
Proof.
  apply (proj1 (Generate_error_source (sampleLowering "and") (sampleLowering "or")
                  failingLowering (sampleLowering "nor") sampleParse sampleAdd ruleName
                  sampleGenerator {| parser.Rules := [samplePolicyRule] |})
           (ExternalError "unknown criterion")).
  vm_compute. reflexivity.
Defined.

Lemma Generate_keeps_sorted_order_witness :
  exists module g',
    sampleGenerate {| parser.Rules := [emptyPolicyRule] |} = (Ok module, g') /\
    map ast.unlocated (ast.Rules module)
    = map ast.unlocated
        [ sampleParse "default allow = false"; sampleParse "default deny = false";
          headRule emptyPolicyRule ].
Proof.
  destruct (sampleGenerate {| parser.Rules := [emptyPolicyRule] |})
    as [[module|err] g'] eqn:Hrun; [|vm_compute in Hrun; discriminate Hrun].
  exists module, g'. split; [reflexivity|].
  apply (Generate_keeps_sorted_order _ _ _ _ _ _ _ _ _ _ _
           [ sampleParse "default allow = false"; sampleParse "default deny = false";
             headRule emptyPolicyRule ] Hrun).
  - vm_compute in Hrun. injection Hrun as _ <-. reflexivity.
  - right. repeat constructor.
Defined.

Lemma Generate_locations_witness :
  exists module g',
    sampleGenerate {| parser.Rules := [samplePolicyRule] |} = (Ok module, g') /\
    ast.Location_ <$> ast.Rules module !! 5%nat
    = Some (Some (ast.NewLocation "and_0_fn" "" 6 1)).
Proof.
  destruct (sampleGenerate {| parser.Rules := [samplePolicyRule] |})
    as [[module|err] g'] eqn:Hrun; [|vm_compute in Hrun; discriminate Hrun].
  exists module, g'. split; [reflexivity|].
  rewrite (Generate_locations _ _ _ _ _ _ _ _ _ _ _ sampleBuilt 5 Hrun).
  - reflexivity.
  - vm_compute in Hrun. injection Hrun as _ <-. reflexivity.
  - repeat constructor.
  - vm_compute. reflexivity.
Defined.

End GeneratorExtras.
